(** * cpp-base64: a shallow embedding of [base64.cpp] and its properties

    The development follows the C++ source function by function.

    Data model.
    - A [std::string] (and the raw buffer [unsigned char const*] with its
      length) is a [list byte]; a [char] is a [byte].
    - [unsigned int] is 32 bits wide and [size_t] is 64 bits wide (the LP64 and
      LLP64 data models).  Values of these types are integers in [Z]; the
      arithmetic on positions and lengths is followed by [wrap_uint] or
      [wrap_size].  A [chunk] is built from bytes or from six-bit table
      entries and stays below [2 ^ 25]: its shifts are written without a
      wrap.
    - A call ends in one of four ways, see [outcome]: it returns, it throws
      the one exception of the file ([std::runtime_error], raised by
      [pos_of_char]), it reads outside a buffer (undefined behaviour), or the
      loop it runs has not finished when the fuel given to it is used up.
    - The loops are recursive functions on a number of turns, the fuel.
      [base64_encode] and [insert_linebreaks] take it as an argument, and
      the results say how much is enough; [decode] gives its loop the length
      of the string, which is always enough ([decode_terminates]).
    - [ret.reserve(...)] only pre-allocates and is left out. *)

From Stdlib Require Import Strings.String Strings.Byte.
From Stdlib Require Import ZArith List Lia Bool Arith Btauto.
From coqutil Require Import Byte Z.bitblast.
Import ListNotations.

Local Open Scope Z_scope.

(** ** Machine integers *)

Definition wrap_uint (z : Z) : Z := z mod 2 ^ 32.
Definition wrap_size (z : Z) : Z := z mod 2 ^ 64.

(** ** Outcomes of a call *)

Inductive outcome (A : Type) : Type :=
| Returned (a : A)   (* normal return *)
| Thrown             (* std::runtime_error("Input is not valid base64-encoded data.") *)
| Undefined          (* a read outside the buffer *)
| OutOfFuel.         (* the loop is still running *)

Arguments Returned {A} a.
Arguments Thrown {A}.
Arguments Undefined {A}.
Arguments OutOfFuel {A}.

Definition bind {A B : Type} (m : outcome A) (k : A -> outcome B) : outcome B :=
  match m with
  | Returned a => k a
  | Thrown => Thrown
  | Undefined => Undefined
  | OutOfFuel => OutOfFuel
  end.

Notation "x <- m ;; k" := (bind m (fun x => k))
  (at level 61, m at next level, right associativity).

(** ** Characters and strings *)

Definition chars (s : string) : list byte := list_byte_of_string s.

Definition ch_nul : byte := x00.
Definition ch_newline : byte := x0a.   (* '\n' *)
Definition ch_equals : byte := x3d.    (* '=' *)
Definition ch_dot : byte := x2e.       (* '.' *)

(** [bytes_to_encode[i]]: a read through the raw pointer; the buffer holds
    [in_len] bytes. *)
Definition buf_at (buf : list byte) (i : Z) : outcome byte :=
  match nth_error buf (Z.to_nat i) with
  | Some b => Returned b
  | None => Undefined
  end.

(** The two instantiations of the [String] template parameter.  They differ
    in [operator[]] at index [size()]: a [std::string] yields the terminating
    NUL there, a [std::string_view] has no element there.  Past [size()] the
    read is undefined for both. *)
Inductive String_param : Type := const_std_string_ref | std_string_view.

Definition str_at (K : String_param) (s : list byte) (i : Z) : outcome byte :=
  match nth_error s (Z.to_nat i) with
  | Some b => Returned b
  | None =>
      match K with
      | const_std_string_ref =>
          if i =? Z.of_nat (length s) then Returned ch_nul else Undefined
      | std_string_view => Undefined
      end
  end.

(** ** The tables *)

Definition to_base64_chars (url : bool) : list byte :=
  if url
  then chars "ABCDEFGHIJKLMNOPQRSTUVWXYZabcdefghijklmnopqrstuvwxyz0123456789-_"
  else chars "ABCDEFGHIJKLMNOPQRSTUVWXYZabcdefghijklmnopqrstuvwxyz0123456789+/".

Definition from_base64_chars : list Z :=
  [ 64; 64; 64; 64; 64; 64; 64; 64; 64; 64; 64; 64; 64; 64; 64; 64;
    64; 64; 64; 64; 64; 64; 64; 64; 64; 64; 64; 64; 64; 64; 64; 64;
    64; 64; 64; 64; 64; 64; 64; 64; 64; 64; 64; 62; 64; 62; 64; 63;
    52; 53; 54; 55; 56; 57; 58; 59; 60; 61; 64; 64; 64; 64; 64; 64;
    64;  0;  1;  2;  3;  4;  5;  6;  7;  8;  9; 10; 11; 12; 13; 14;
    15; 16; 17; 18; 19; 20; 21; 22; 23; 24; 25; 64; 64; 64; 64; 63;
    64; 26; 27; 28; 29; 30; 31; 32; 33; 34; 35; 36; 37; 38; 39; 40;
    41; 42; 43; 44; 45; 46; 47; 48; 49; 50; 51; 64; 64; 64; 64; 64;
    64; 64; 64; 64; 64; 64; 64; 64; 64; 64; 64; 64; 64; 64; 64; 64;
    64; 64; 64; 64; 64; 64; 64; 64; 64; 64; 64; 64; 64; 64; 64; 64;
    64; 64; 64; 64; 64; 64; 64; 64; 64; 64; 64; 64; 64; 64; 64; 64;
    64; 64; 64; 64; 64; 64; 64; 64; 64; 64; 64; 64; 64; 64; 64; 64;
    64; 64; 64; 64; 64; 64; 64; 64; 64; 64; 64; 64; 64; 64; 64; 64;
    64; 64; 64; 64; 64; 64; 64; 64; 64; 64; 64; 64; 64; 64; 64; 64;
    64; 64; 64; 64; 64; 64; 64; 64; 64; 64; 64; 64; 64; 64; 64; 64;
    64; 64; 64; 64; 64; 64; 64; 64; 64; 64; 64; 64; 64; 64; 64; 64 ].

(** [base64_chars_[i]] *)
Definition tab_at (tab : list byte) (i : Z) : byte :=
  nth (Z.to_nat i) tab ch_nul.

(** [from_base64_chars[chr]] *)
Definition from_at (chr : byte) : Z :=
  nth (Z.to_nat (byte.unsigned chr)) from_base64_chars 64.

Definition pos_of_char (chr : byte) : outcome Z :=
  if negb (from_at chr =? 64) then Returned (from_at chr) else Thrown.

(** ** base64_encode *)

(** One turn of the [while] loop of [base64_encode]: the four characters
    pushed for the three bytes read. *)
Definition encode_chunk3 (tab : list byte) (b0 b1 b2 : byte) : list byte :=
  let chunk :=
    Z.lor (Z.lor (Z.shiftl (byte.unsigned b0) 16) (Z.shiftl (byte.unsigned b1) 8))
          (byte.unsigned b2) in
  [ tab_at tab (Z.shiftr chunk 18);
    tab_at tab (Z.land (Z.shiftr chunk 12) 63);
    tab_at tab (Z.land (Z.shiftr chunk 6) 63);
    tab_at tab (Z.land chunk 63) ].

(** [case 2] of the [switch]. *)
Definition encode_chunk2 (tab : list byte) (trailing_char b0 b1 : byte) : list byte :=
  let chunk := Z.lor (Z.shiftl (byte.unsigned b0) 8) (byte.unsigned b1) in
  [ tab_at tab (Z.shiftr chunk 10);
    tab_at tab (Z.land (Z.shiftr chunk 4) 63);
    tab_at tab (Z.land (Z.shiftl chunk 2) 63);
    trailing_char ].

(** [case 1] of the [switch]. *)
Definition encode_chunk1 (tab : list byte) (trailing_char b0 : byte) : list byte :=
  let chunk := byte.unsigned b0 in
  [ tab_at tab (Z.shiftr chunk 2);
    tab_at tab (Z.land (Z.shiftl chunk 4) 63);
    trailing_char;
    trailing_char ].

(** The [while (pos < len)] loop.  [pos] is an [unsigned int], [len] a
    [size_t]: the comparison is made at 64 bits, the additions at 32. *)
Fixpoint encode_loop (fuel : nat) (tab : list byte) (bytes_to_encode : list byte)
    (len pos : Z) (ret : list byte) : outcome (Z * list byte) :=
  if pos <? len then
    match fuel with
    | O => OutOfFuel
    | S fuel' =>
        b0 <- buf_at bytes_to_encode (wrap_uint (pos + 0)) ;;
        b1 <- buf_at bytes_to_encode (wrap_uint (pos + 1)) ;;
        b2 <- buf_at bytes_to_encode (wrap_uint (pos + 2)) ;;
        encode_loop fuel' tab bytes_to_encode len (wrap_uint (pos + 3))
                    (ret ++ encode_chunk3 tab b0 b1 b2)
    end
  else Returned (pos, ret).

Definition trailing_char_of (url : bool) : byte := if url then ch_dot else ch_equals.

Definition base64_encode (fuel : nat) (bytes_to_encode : list byte) (url : bool)
    : outcome (list byte) :=
  let in_len := Z.of_nat (length bytes_to_encode) in
  let pad := in_len mod 3 in
  let len := in_len - pad in
  let trailing_char := trailing_char_of url in
  let base64_chars_ := to_base64_chars url in
  st <- encode_loop fuel base64_chars_ bytes_to_encode len 0 [] ;;
  let '(pos, ret) := st in
  if pad =? 2 then
    b0 <- buf_at bytes_to_encode (wrap_uint (pos + 0)) ;;
    b1 <- buf_at bytes_to_encode (wrap_uint (pos + 1)) ;;
    Returned (ret ++ encode_chunk2 base64_chars_ trailing_char b0 b1)
  else if pad =? 1 then
    b0 <- buf_at bytes_to_encode (wrap_uint (pos + 0)) ;;
    Returned (ret ++ encode_chunk1 base64_chars_ trailing_char b0)
  else Returned ret.

(** [encode(String s, bool url)] passes [s.data()] and [s.length()] on. *)
Definition encode (fuel : nat) (s : list byte) (url : bool) : outcome (list byte) :=
  base64_encode fuel s url.

(** ** insert_linebreaks and the wrapped encoders *)

(** [str.insert(pos, "\n")], called with [pos < str.size()]. *)
Definition insert_newline (str : list byte) (pos : Z) : list byte :=
  firstn (Z.to_nat pos) str ++ ch_newline :: skipn (Z.to_nat pos) str.

Fixpoint linebreak_loop (fuel : nat) (str : list byte) (distance pos : Z)
    : outcome (list byte) :=
  if pos <? Z.of_nat (length str) then
    match fuel with
    | O => OutOfFuel
    | S fuel' =>
        linebreak_loop fuel' (insert_newline str pos) distance
                       (wrap_size (pos + wrap_size (distance + 1)))
    end
  else Returned str.

Definition insert_linebreaks (fuel : nat) (str : list byte) (distance : Z)
    : outcome (list byte) :=
  match str with
  | [] => Returned str
  | _ => linebreak_loop fuel str distance distance
  end.

Definition encode_with_line_breaks (fuel : nat) (s : list byte) (line_length : Z)
    : outcome (list byte) :=
  e <- encode fuel s false ;;
  insert_linebreaks fuel e line_length.

Definition encode_pem (fuel : nat) (s : list byte) : outcome (list byte) :=
  encode_with_line_breaks fuel s 64.

Definition encode_mime (fuel : nat) (s : list byte) : outcome (list byte) :=
  encode_with_line_breaks fuel s 76.

(** ** decode *)

Definition is_trailing (c : byte) : bool :=
  Byte.eqb c ch_equals || Byte.eqb c ch_dot.

(** [static_cast<std::string::value_type>(x & 0xff)] *)
Definition to_char (x : Z) : byte := byte.of_Z (Z.land x 255).

(** The bytes pushed for a group of four characters (loop body and last
    [else] branch). *)
Definition decode_chunk4 (c0 c1 c2 c3 : byte) : outcome (list byte) :=
  p0 <- pos_of_char c0 ;;
  p1 <- pos_of_char c1 ;;
  p2 <- pos_of_char c2 ;;
  p3 <- pos_of_char c3 ;;
  let chunk :=
    Z.lor (Z.lor (Z.lor (Z.shiftl p0 18) (Z.shiftl p1 12)) (Z.shiftl p2 6)) p3 in
  Returned [ to_char (Z.shiftr chunk 16); to_char (Z.shiftr chunk 8); to_char chunk ].

(** The bytes pushed when the fourth character of the last group is a
    trailing character. *)
Definition decode_chunk3 (c0 c1 c2 : byte) : outcome (list byte) :=
  p0 <- pos_of_char c0 ;;
  p1 <- pos_of_char c1 ;;
  p2 <- pos_of_char c2 ;;
  let chunk := Z.lor (Z.lor (Z.shiftl p0 12) (Z.shiftl p1 6)) p2 in
  Returned [ to_char (Z.shiftr chunk 10); to_char (Z.shiftr chunk 2) ].

(** The byte pushed when the third character of the last group is a
    trailing character. *)
Definition decode_chunk2 (c0 c1 : byte) : outcome (list byte) :=
  p0 <- pos_of_char c0 ;;
  p1 <- pos_of_char c1 ;;
  let chunk := Z.lor (Z.shiftl p0 6) p1 in
  Returned [ to_char (Z.shiftr chunk 4) ].

(** The [while (pos < len)] loop of [decode]; [pos] and [len] are [size_t].

    The operands of [|] are not sequenced with respect to each other, so an
    execution may make the four reads in any order and before any call of
    [pos_of_char]: when one of the reads is outside the string, the
    behaviour is undefined whatever [pos_of_char] would throw.  The model
    therefore makes the four reads first. *)
Fixpoint decode_loop (fuel : nat) (K : String_param) (encoded_string : list byte)
    (len pos : Z) (ret : list byte) : outcome (Z * list byte) :=
  if pos <? len then
    match fuel with
    | O => OutOfFuel
    | S fuel' =>
        c0 <- str_at K encoded_string (wrap_size (pos + 0)) ;;
        c1 <- str_at K encoded_string (wrap_size (pos + 1)) ;;
        c2 <- str_at K encoded_string (wrap_size (pos + 2)) ;;
        c3 <- str_at K encoded_string (wrap_size (pos + 3)) ;;
        bs <- decode_chunk4 c0 c1 c2 c3 ;;
        decode_loop fuel' K encoded_string len (wrap_size (pos + 4)) (ret ++ bs)
    end
  else Returned (pos, ret).

(** The three-way branch on the last group. *)
Definition decode_last (K : String_param) (encoded_string : list byte)
    (pos : Z) (ret : list byte) : outcome (list byte) :=
  c2 <- str_at K encoded_string (wrap_size (pos + 2)) ;;
  if is_trailing c2 then
    c0 <- str_at K encoded_string (wrap_size (pos + 0)) ;;
    c1 <- str_at K encoded_string (wrap_size (pos + 1)) ;;
    bs <- decode_chunk2 c0 c1 ;;
    Returned (ret ++ bs)
  else
    c3 <- str_at K encoded_string (wrap_size (pos + 3)) ;;
    if is_trailing c3 then
      c0 <- str_at K encoded_string (wrap_size (pos + 0)) ;;
      c1 <- str_at K encoded_string (wrap_size (pos + 1)) ;;
      bs <- decode_chunk3 c0 c1 c2 ;;
      Returned (ret ++ bs)
    else
      c0 <- str_at K encoded_string (wrap_size (pos + 0)) ;;
      c1 <- str_at K encoded_string (wrap_size (pos + 1)) ;;
      bs <- decode_chunk4 c0 c1 c2 c3 ;;
      Returned (ret ++ bs).

(** Lines 197 to 233 of [decode]: what it does with a non-empty string when
    [remove_linebreaks] is unset. *)
Definition decode_body (fuel : nat) (K : String_param) (encoded_string : list byte)
    : outcome (list byte) :=
  let in_len := Z.of_nat (length encoded_string) in
  let len := wrap_size (in_len - 4) in
  st <- decode_loop fuel K encoded_string len 0 [] ;;
  let '(pos, ret) := st in
  decode_last K encoded_string pos ret.

(** [copy.erase(std::remove(copy.begin(), copy.end(), '\n'), copy.end())] *)
Definition erase_newlines (copy : list byte) : list byte :=
  filter (fun c => negb (Byte.eqb c ch_newline)) copy.

(** [decode<String>(encoded_string, remove_linebreaks)] with explicit fuel
    for its loop.  With [remove_linebreaks] set it calls
    [base64_decode(copy, false)], which is [decode<std::string const&>]. *)
Definition decode_fuel (fuel : nat) (K : String_param) (encoded_string : list byte)
    (remove_linebreaks : bool) : outcome (list byte) :=
  match encoded_string with
  | [] => Returned []
  | _ =>
      if remove_linebreaks then
        let copy := erase_newlines encoded_string in
        match copy with
        | [] => Returned []
        | _ => decode_body fuel const_std_string_ref copy
        end
      else decode_body fuel K encoded_string
  end.

(** The loop of [decode] ends for every input (see [decode_fuel_enough] and
    [decode_terminates] below): one turn per group of four characters is
    enough, so the length of the string is given as fuel. *)
Definition decode (K : String_param) (encoded_string : list byte)
    (remove_linebreaks : bool) : outcome (list byte) :=
  decode_fuel (length encoded_string) K encoded_string remove_linebreaks.

Definition base64_decode (s : list byte) (remove_linebreaks : bool)
    : outcome (list byte) :=
  decode const_std_string_ref s remove_linebreaks.

Definition base64_decode_view (s : list byte) (remove_linebreaks : bool)
    : outcome (list byte) :=
  decode std_string_view s remove_linebreaks.

Definition base64_encode_pem (fuel : nat) (s : list byte) : outcome (list byte) :=
  encode_pem fuel s.

Definition base64_encode_mime (fuel : nat) (s : list byte) : outcome (list byte) :=
  encode_mime fuel s.

(** ** Functional views of the loops

    [encode_groups] and [decode_groups] walk the input by structural
    recursion, a group at a time, and call the same chunk functions as the
    loops.  They are proof devices: the refinement lemmas below relate the
    loops to them, [base64_encode_groups] for a buffer of fewer than
    [2 ^ 32] bytes and [decode_groups_spec] for a string whose length is a
    positive multiple of four.  On other strings [decode_groups] is not
    used. *)

Fixpoint encode_groups (tab : list byte) (trailing_char : byte) (bs : list byte)
    : list byte :=
  match bs with
  | b0 :: b1 :: b2 :: rest =>
      encode_chunk3 tab b0 b1 b2 ++ encode_groups tab trailing_char rest
  | [b0; b1] => encode_chunk2 tab trailing_char b0 b1
  | [b0] => encode_chunk1 tab trailing_char b0
  | [] => []
  end.

Definition decode_final (c0 c1 c2 c3 : byte) : outcome (list byte) :=
  if is_trailing c2 then decode_chunk2 c0 c1
  else if is_trailing c3 then decode_chunk3 c0 c1 c2
  else decode_chunk4 c0 c1 c2 c3.

Fixpoint decode_groups (s : list byte) : outcome (list byte) :=
  match s with
  | c0 :: c1 :: c2 :: c3 :: rest =>
      match rest with
      | [] => decode_final c0 c1 c2 c3
      | _ =>
          bs <- decode_chunk4 c0 c1 c2 c3 ;;
          t <- decode_groups rest ;;
          Returned (bs ++ t)
      end
  | _ => Undefined
  end.

(** The characters of [s] that [decode] hands to [pos_of_char]: all of them
    but, in the last group, a trailing character in third place together
    with what follows it, or a trailing character in fourth place. *)
Fixpoint examined (s : list byte) : list byte :=
  match s with
  | c0 :: c1 :: c2 :: c3 :: rest =>
      match rest with
      | [] =>
          c0 :: c1 ::
          (if is_trailing c2 then []
           else c2 :: (if is_trailing c3 then [] else [c3]))
      | _ => c0 :: c1 :: c2 :: c3 :: examined rest
      end
  | _ => s
  end.

(** [s] without the one or two trailing characters that end it. *)
Definition without_padding (s : list byte) : list byte :=
  match rev s with
  | c3 :: c2 :: r =>
      if is_trailing c3
      then (if is_trailing c2 then rev r else rev (c2 :: r))
      else s
  | _ => s
  end.

(** The last group of [s] is not of the form [xx=y]: a trailing character in
    third place is followed by a trailing character. *)
Definition padding_closed (s : list byte) : Prop :=
  match rev s with
  | c3 :: c2 :: _ => is_trailing c2 = true -> is_trailing c3 = true
  | _ => True
  end.

(** [break_lines fuel d s]: [s] cut into lines of [d] characters, a newline
    after each line but the last.  The functional view of the loop of
    [insert_linebreaks]. *)
Fixpoint break_lines (fuel d : nat) (rest : list byte) : list byte :=
  match fuel with
  | O => rest
  | S fuel' =>
      if (d <? length rest)%nat
      then firstn d rest ++ ch_newline :: break_lines fuel' d (skipn d rest)
      else rest
  end.

(** Number of characters equal to [p] at the end of [s]. *)
Fixpoint leading (p : byte) (s : list byte) : nat :=
  match s with
  | c :: s' => if Byte.eqb c p then S (leading p s') else O
  | [] => O
  end.

Definition trailing_count (p : byte) (s : list byte) : nat := leading p (rev s).

(** A character of one of the two alphabets, as the reverse table sees it. *)
Definition is_symbol (c : byte) : bool := negb (from_at c =? 64).

(** ** Predicates and inputs of the statements *)

(** Row [k] of the alphabet [url]: the reverse table sends its character
    back to [k]; the character is no trailing character, no newline, and
    none of the two characters that only the other alphabet has. *)
Definition symbol_row_ok (url : bool) (k : nat) : bool :=
  let c := tab_at (to_base64_chars url) (Z.of_nat k) in
  (from_at c =? Z.of_nat k) && negb (is_trailing c) && negb (Byte.eqb c ch_newline)
  && negb (Byte.eqb c (if url then x2b else x2d))
  && negb (Byte.eqb c (if url then x2f else x5f)).

(** Three bytes, two bytes, as [base64_encode] packs them into a chunk. *)
Definition pack3 (a b c : Z) : Z :=
  Z.lor (Z.lor (Z.shiftl (a mod 2 ^ 8) 16) (Z.shiftl (b mod 2 ^ 8) 8)) (c mod 2 ^ 8).
Definition pack2 (a b : Z) : Z := Z.lor (Z.shiftl (a mod 2 ^ 8) 8) (b mod 2 ^ 8).

(** A character of the alphabet [url]. *)
Definition alphabet_char (url : bool) (c : byte) : Prop :=
  exists i, 0 <= i < 64 /\ c = tab_at (to_base64_chars url) i.

(** A character that [base64_encode] can push. *)
Definition encoded_char (url : bool) (c : byte) : Prop :=
  alphabet_char url c \/ c = trailing_char_of url.

Definition no_newline (s : list byte) : Prop :=
  Forall (fun c => Byte.eqb c ch_newline = false) s.

(** What a group of characters handed to [pos_of_char] makes of a call:
    a result when all are symbols, the exception when one is not. *)
Definition outcome_of_symbols (l : list byte) (r : outcome (list byte)) : Prop :=
  if forallb is_symbol l then exists bs, r = Returned bs else r = Thrown.

(** A buffer of [2 ^ 32 + 2] zero bytes. *)
Definition zeros_4GiB_2 : list byte := repeat x00 (Z.to_nat (2 ^ 32 + 2)).

(** The byte [0x01] followed by [2 ^ 32] zero bytes. *)
Definition one_then_zeros_4GiB : list byte := x01 :: repeat x00 (Z.to_nat (2 ^ 32)).

(** The same buffer with [0x01] for its last byte. *)
Definition one_zeros_one_4GiB : list byte :=
  x01 :: repeat x00 (Z.to_nat (2 ^ 32 - 1)) ++ [x01].

(** The groups of four characters of [s], each decoded as the loop of
    [decode] does; a functional view of the loop alone. *)
Fixpoint decode_full (s : list byte) : outcome (list byte) :=
  match s with
  | c0 :: c1 :: c2 :: c3 :: rest =>
      bs <- decode_chunk4 c0 c1 c2 c3 ;;
      t <- decode_full rest ;;
      Returned (bs ++ t)
  | _ => Returned []
  end.

(** The character of the standard alphabet that the reverse table and the
    tests on the last group treat as [c]: ['+'] for ['-'], ['/'] for ['_'],
    ['='] for ['.']. *)
Definition to_standard (c : byte) : byte :=
  if Byte.eqb c x2d then x2b
  else if Byte.eqb c x5f then x2f
  else if Byte.eqb c ch_dot then ch_equals
  else c.

(** * Proofs *)

(** ** The tables *)

Lemma symbol_rows_ok url : forallb (symbol_row_ok url) (seq 0 64) = true.
Proof. destruct url; vm_compute; reflexivity. Qed.

Lemma symbol_row (url : bool) (i : Z) :
  0 <= i < 64 -> symbol_row_ok url (Z.to_nat i) = true.
Proof.
  intros Hi. pose proof (symbol_rows_ok url) as H.
  rewrite forallb_forall in H. apply H, in_seq. lia.
Qed.

Lemma from_at_tab url i :
  0 <= i < 64 -> from_at (tab_at (to_base64_chars url) i) = i.
Proof.
  intros Hi. pose proof (symbol_row url i Hi) as H. unfold symbol_row_ok in H.
  rewrite Z2Nat.id in H by lia.
  rewrite !andb_true_iff in H. destruct H as [[[[H _] _] _] _].
  now apply Z.eqb_eq.
Qed.

Lemma tab_not_trailing url i :
  0 <= i < 64 -> is_trailing (tab_at (to_base64_chars url) i) = false.
Proof.
  intros Hi. pose proof (symbol_row url i Hi) as H. unfold symbol_row_ok in H.
  rewrite Z2Nat.id in H by lia.
  rewrite !andb_true_iff in H. destruct H as [[[[_ H] _] _] _].
  now apply negb_true_iff.
Qed.

Lemma tab_not_newline url i :
  0 <= i < 64 -> Byte.eqb (tab_at (to_base64_chars url) i) ch_newline = false.
Proof.
  intros Hi. pose proof (symbol_row url i Hi) as H. unfold symbol_row_ok in H.
  rewrite Z2Nat.id in H by lia.
  rewrite !andb_true_iff in H. destruct H as [[[_ H] _] _].
  now apply negb_true_iff.
Qed.

Lemma pos_of_char_tab url i :
  0 <= i < 64 -> pos_of_char (tab_at (to_base64_chars url) i) = Returned i.
Proof.
  intros Hi. unfold pos_of_char. rewrite from_at_tab by assumption.
  replace (i =? 64) with false by (symmetry; apply Z.eqb_neq; lia).
  reflexivity.
Qed.

Lemma trailing_char_is_trailing url : is_trailing (trailing_char_of url) = true.
Proof. destruct url; reflexivity. Qed.

Lemma trailing_char_not_newline url :
  Byte.eqb (trailing_char_of url) ch_newline = false.
Proof. destruct url; reflexivity. Qed.

(** ** Bit-level facts about the chunks *)

Ltac clear_negative_bits :=
  repeat match goal with
         | |- context [Z.testbit ?x ?i] => rewrite (Z.testbit_neg_r x i) by lia
         end.

Ltac bits := Z.bitblast; clear_negative_bits; try btauto.

Lemma byte_mod (b : byte) : byte.unsigned b = byte.unsigned b mod 2 ^ 8.
Proof. symmetry. apply (byte.wrap_unsigned b). Qed.

Lemma to_char_unsigned (x : Z) (b : byte) :
  Z.land x (Z.ones 8) = byte.unsigned b mod 2 ^ 8 -> to_char x = b.
Proof.
  intros H. unfold to_char. change 255 with (Z.ones 8).
  rewrite H, <- byte_mod. apply byte.of_Z_unsigned.
Qed.

Lemma six_bits (x : Z) : x = Z.land x (Z.ones 6) -> 0 <= x < 64.
Proof.
  intros H. rewrite H, Z.land_ones by lia. apply Z.mod_pos_bound. lia.
Qed.

Lemma land63_range (x : Z) : 0 <= Z.land x 63 < 64.
Proof.
  change 63 with (Z.ones 6). rewrite Z.land_ones by lia.
  apply Z.mod_pos_bound. lia.
Qed.

(** Four six-bit fields put back together. *)
Lemma repack4 (x : Z) :
  Z.lor (Z.lor (Z.lor (Z.shiftl (Z.shiftr x 18) 18)
                      (Z.shiftl (Z.land (Z.shiftr x 12) (Z.ones 6)) 12))
               (Z.shiftl (Z.land (Z.shiftr x 6) (Z.ones 6)) 6))
        (Z.land x (Z.ones 6)) = x.
Proof. bits. Qed.

Lemma repack3 (x : Z) :
  Z.lor (Z.lor (Z.shiftl (Z.shiftr x 10) 12)
               (Z.shiftl (Z.land (Z.shiftr x 4) (Z.ones 6)) 6))
        (Z.land (Z.shiftl x 2) (Z.ones 6)) = Z.shiftl x 2.
Proof. bits. Qed.

Lemma repack2 (x : Z) :
  Z.lor (Z.shiftl (Z.shiftr x 2) 6) (Z.land (Z.shiftl x 4) (Z.ones 6)) = Z.shiftl x 4.
Proof. bits. Qed.

Lemma pack3_top a b c :
  Z.shiftr (pack3 a b c) 18 = Z.land (Z.shiftr (pack3 a b c) 18) (Z.ones 6).
Proof. unfold pack3. bits. Qed.

Lemma pack3_byte0 a b c : Z.land (Z.shiftr (pack3 a b c) 16) (Z.ones 8) = a mod 2 ^ 8.
Proof. unfold pack3. bits. Qed.

Lemma pack3_byte1 a b c : Z.land (Z.shiftr (pack3 a b c) 8) (Z.ones 8) = b mod 2 ^ 8.
Proof. unfold pack3. bits. Qed.

Lemma pack3_byte2 a b c : Z.land (pack3 a b c) (Z.ones 8) = c mod 2 ^ 8.
Proof. unfold pack3. bits. Qed.

Lemma pack2_top a b :
  Z.shiftr (pack2 a b) 10 = Z.land (Z.shiftr (pack2 a b) 10) (Z.ones 6).
Proof. unfold pack2. bits. Qed.

Lemma pack2_byte0 a b :
  Z.land (Z.shiftr (Z.shiftl (pack2 a b) 2) 10) (Z.ones 8) = a mod 2 ^ 8.
Proof. unfold pack2. bits. Qed.

Lemma pack2_byte1 a b :
  Z.land (Z.shiftr (Z.shiftl (pack2 a b) 2) 2) (Z.ones 8) = b mod 2 ^ 8.
Proof. unfold pack2. bits. Qed.

Lemma pack1_top a :
  Z.shiftr (a mod 2 ^ 8) 2 = Z.land (Z.shiftr (a mod 2 ^ 8) 2) (Z.ones 6).
Proof. bits. Qed.

Lemma pack1_byte0 a :
  Z.land (Z.shiftr (Z.shiftl (a mod 2 ^ 8) 4) 4) (Z.ones 8) = a mod 2 ^ 8.
Proof. bits. Qed.

(** ** A chunk decodes to the bytes it encodes *)

Lemma to_char_byte (x : Z) (b : byte) :
  Z.land x (Z.ones 8) = byte.unsigned b -> to_char x = b.
Proof. intros H. apply to_char_unsigned. now rewrite <- byte_mod. Qed.

Section Chunks.
Variable url : bool.
Variables b0 b1 b2 : byte.
Let tab := to_base64_chars url.
Let t := trailing_char_of url.

Let u0 := byte.unsigned b0.
Let u1 := byte.unsigned b1.
Let u2 := byte.unsigned b2.

Lemma chunk3_indices :
  let x := Z.lor (Z.lor (Z.shiftl u0 16) (Z.shiftl u1 8)) u2 in
  0 <= Z.shiftr x 18 < 64.
Proof.
  intros x. apply six_bits.
  pose proof (pack3_top u0 u1 u2) as H. unfold pack3 in H. subst u0 u1 u2 x.
  now rewrite <- !byte_mod in H.
Qed.

Lemma chunk2_indices :
  let x := Z.lor (Z.shiftl u0 8) u1 in 0 <= Z.shiftr x 10 < 64.
Proof.
  intros x. apply six_bits.
  pose proof (pack2_top u0 u1) as H. unfold pack2 in H. subst u0 u1 x.
  now rewrite <- !byte_mod in H.
Qed.

Lemma chunk1_indices : 0 <= Z.shiftr u0 2 < 64.
Proof.
  apply six_bits.
  pose proof (pack1_top u0) as H. subst u0.
  now rewrite <- !byte_mod in H.
Qed.

Lemma decode_encode_chunk3 :
  exists c0 c1 c2 c3,
    encode_chunk3 tab b0 b1 b2 = [c0; c1; c2; c3] /\
    decode_chunk4 c0 c1 c2 c3 = Returned [b0; b1; b2] /\
    is_trailing c2 = false /\ is_trailing c3 = false.
Proof.
  unfold encode_chunk3. fold u0 u1 u2.
  set (x := Z.lor (Z.lor (Z.shiftl u0 16) (Z.shiftl u1 8)) u2).
  pose proof chunk3_indices as R0. cbv zeta in R0. fold x in R0.
  pose proof (land63_range (Z.shiftr x 12)) as R1.
  pose proof (land63_range (Z.shiftr x 6)) as R2.
  pose proof (land63_range x) as R3.
  do 4 eexists. split; [reflexivity|]. subst tab.
  split; [|split; apply tab_not_trailing; assumption].
  unfold decode_chunk4. rewrite !pos_of_char_tab by assumption. cbn [bind].
  change 63 with (Z.ones 6). rewrite repack4.
  pose proof (pack3_byte0 u0 u1 u2) as E0.
  pose proof (pack3_byte1 u0 u1 u2) as E1.
  pose proof (pack3_byte2 u0 u1 u2) as E2.
  unfold pack3 in E0, E1, E2.
  subst u0 u1 u2. rewrite <- !byte_mod in E0, E1, E2. fold x in E0, E1, E2.
  now rewrite (to_char_byte _ _ E0), (to_char_byte _ _ E1), (to_char_byte _ _ E2).
Qed.

Lemma decode_encode_chunk2 :
  exists c0 c1 c2,
    encode_chunk2 tab t b0 b1 = [c0; c1; c2; t] /\
    decode_chunk3 c0 c1 c2 = Returned [b0; b1] /\
    is_trailing c2 = false.
Proof.
  unfold encode_chunk2. fold u0 u1.
  set (x := Z.lor (Z.shiftl u0 8) u1).
  pose proof chunk2_indices as R0. cbv zeta in R0. fold x in R0.
  pose proof (land63_range (Z.shiftr x 4)) as R1.
  pose proof (land63_range (Z.shiftl x 2)) as R2.
  do 3 eexists. split; [reflexivity|]. subst tab.
  split; [|apply tab_not_trailing; assumption].
  unfold decode_chunk3. rewrite !pos_of_char_tab by assumption. cbn [bind].
  change 63 with (Z.ones 6). rewrite repack3.
  pose proof (pack2_byte0 u0 u1) as E0.
  pose proof (pack2_byte1 u0 u1) as E1.
  unfold pack2 in E0, E1.
  subst u0 u1. rewrite <- !byte_mod in E0, E1. fold x in E0, E1.
  now rewrite (to_char_byte _ _ E0), (to_char_byte _ _ E1).
Qed.

Lemma decode_encode_chunk1 :
  exists c0 c1,
    encode_chunk1 tab t b0 = [c0; c1; t; t] /\
    decode_chunk2 c0 c1 = Returned [b0].
Proof.
  unfold encode_chunk1. fold u0.
  pose proof chunk1_indices as R0.
  pose proof (land63_range (Z.shiftl u0 4)) as R1.
  do 2 eexists. split; [reflexivity|]. subst tab.
  unfold decode_chunk2. rewrite !pos_of_char_tab by assumption. cbn [bind].
  change 63 with (Z.ones 6). rewrite repack2.
  pose proof (pack1_byte0 u0) as E0.
  subst u0. rewrite <- !byte_mod in E0.
  now rewrite (to_char_byte _ _ E0).
Qed.
End Chunks.

(** ** The loop of [base64_encode] *)

Lemma wrap_uint_small (z : Z) : 0 <= z < 2 ^ 32 -> wrap_uint z = z.
Proof. intros H. apply Z.mod_small. assumption. Qed.

Lemma wrap_size_small (z : Z) : 0 <= z < 2 ^ 64 -> wrap_size z = z.
Proof. intros H. apply Z.mod_small. assumption. Qed.

Lemma nth_error_offset {A} (pre l : list A) (k : Z) :
  0 <= k ->
  nth_error (pre ++ l) (Z.to_nat (Z.of_nat (length pre) + k)) = nth_error l (Z.to_nat k).
Proof.
  intros Hk. rewrite nth_error_app2 by lia. f_equal. lia.
Qed.

Lemma buf_at_offset (pre l : list byte) (k : Z) (x : byte) :
  0 <= k ->
  Z.of_nat (length pre) + k < 2 ^ 32 ->
  nth_error l (Z.to_nat k) = Some x ->
  buf_at (pre ++ l) (wrap_uint (Z.of_nat (length pre) + k)) = Returned x.
Proof.
  intros Hk Hlt Hx. rewrite wrap_uint_small by lia.
  unfold buf_at. now rewrite nth_error_offset, Hx.
Qed.

Lemma encode_loop_eq fuel tab bs len pos ret :
  encode_loop fuel tab bs len pos ret =
  if pos <? len then
    match fuel with
    | O => OutOfFuel
    | S fuel' =>
        b0 <- buf_at bs (wrap_uint (pos + 0)) ;;
        b1 <- buf_at bs (wrap_uint (pos + 1)) ;;
        b2 <- buf_at bs (wrap_uint (pos + 2)) ;;
        encode_loop fuel' tab bs len (wrap_uint (pos + 3)) (ret ++ encode_chunk3 tab b0 b1 b2)
    end
  else Returned (pos, ret).
Proof. destruct fuel; reflexivity. Qed.

(** While the position counter does not wrap, the loop pushes the groups of
    the [3 * m] bytes that lie between [pos] and [len]. *)
Lemma encode_loop_groups tab t (m : nat) :
  forall body pre post fuel ret pos len,
    length body = (3 * m)%nat ->
    pos = Z.of_nat (length pre) ->
    len = pos + 3 * Z.of_nat m ->
    len < 2 ^ 32 ->
    (m <= fuel)%nat ->
    encode_loop fuel tab (pre ++ body ++ post) len pos ret =
    Returned (len, ret ++ encode_groups tab t body).
Proof.
  induction m as [|m IH]; intros body pre post fuel ret pos len Hb Hpos Hlen Hlt Hf.
  - destruct body; [|discriminate].
    rewrite encode_loop_eq.
    replace (pos <? len) with false by (symmetry; apply Z.ltb_ge; lia).
    simpl. rewrite app_nil_r. f_equal. f_equal. lia.
  - destruct body as [|b0 [|b1 [|b2 body]]]; try (simpl in Hb; lia).
    destruct fuel as [|fuel]; [lia|].
    rewrite encode_loop_eq.
    replace (pos <? len) with true by (symmetry; apply Z.ltb_lt; lia).
    subst pos.
    rewrite (buf_at_offset pre _ 0 b0), (buf_at_offset pre _ 1 b1),
      (buf_at_offset pre _ 2 b2) by (reflexivity || lia).
    cbn [bind]. rewrite wrap_uint_small by lia.
    replace (pre ++ (b0 :: b1 :: b2 :: body) ++ post)
      with ((pre ++ [b0; b1; b2]) ++ body ++ post)
      by (rewrite <- app_assoc; reflexivity).
    rewrite (IH body (pre ++ [b0; b1; b2]) post fuel _ _ len).
    + cbn [encode_groups]. now rewrite app_assoc.
    + simpl in Hb. lia.
    + rewrite length_app. simpl. lia.
    + lia.
    + assumption.
    + lia.
Qed.

Lemma encode_groups_app tab t (m : nat) :
  forall body post,
    length body = (3 * m)%nat ->
    encode_groups tab t (body ++ post) =
    encode_groups tab t body ++ encode_groups tab t post.
Proof.
  induction m as [|m IH]; intros body post Hb.
  - destruct body; [reflexivity|discriminate].
  - destruct body as [|b0 [|b1 [|b2 body]]]; try (simpl in Hb; lia).
    cbn [app encode_groups]. rewrite IH by (simpl in Hb; lia).
    now rewrite app_assoc.
Qed.

(** Split a list into whole groups of three and what is left. *)
Lemma split_groups3 (bs : list byte) :
  exists m body post,
    bs = body ++ post /\ length body = (3 * m)%nat /\
    (length post < 3)%nat /\ m = (length bs / 3)%nat.
Proof.
  exists (length bs / 3)%nat, (firstn (3 * (length bs / 3)) bs),
    (skipn (3 * (length bs / 3)) bs).
  pose proof (Nat.div_mod_eq (length bs) 3) as E.
  pose proof (Nat.mod_upper_bound (length bs) 3 ltac:(lia)) as U.
  repeat split.
  - symmetry. apply firstn_skipn.
  - rewrite length_firstn. lia.
  - rewrite length_skipn. lia.
Qed.

(** For a buffer of fewer than [2 ^ 32] bytes, [base64_encode] returns, and
    what it returns is [encode_groups] of the buffer. *)
Lemma base64_encode_groups (fuel : nat) (bs : list byte) (url : bool) :
  Z.of_nat (length bs) < 2 ^ 32 ->
  (length bs / 3 <= fuel)%nat ->
  base64_encode fuel bs url =
  Returned (encode_groups (to_base64_chars url) (trailing_char_of url) bs).
Proof.
  intros Hlt Hf.
  destruct (split_groups3 bs) as (m & body & post & E & Hb & Hp & Hm).
  subst bs. unfold base64_encode. cbv zeta.
  assert (Hlen : Z.of_nat (length (body ++ post)) = 3 * Z.of_nat m + Z.of_nat (length post)).
  { rewrite length_app. lia. }
  assert (Hpad : Z.of_nat (length (body ++ post)) mod 3 = Z.of_nat (length post)).
  { rewrite Hlen, Z.add_comm, Z.mul_comm, Z_mod_plus_full. apply Z.mod_small. lia. }
  rewrite Hpad.
  replace (Z.of_nat (length (body ++ post)) - Z.of_nat (length post))
    with (3 * Z.of_nat m) by lia.
  pose proof (encode_loop_groups (to_base64_chars url) (trailing_char_of url) m
                body [] post fuel [] 0 (3 * Z.of_nat m)) as L.
  cbn [app length] in L. rewrite L by lia. clear L.
  cbn [bind]. rewrite (encode_groups_app _ _ m) by assumption.
  replace (3 * Z.of_nat m) with (Z.of_nat (length body)) by lia.
  assert (Hbl : Z.of_nat (length body) + Z.of_nat (length post) < 2 ^ 32)
    by (rewrite length_app in Hlt; lia).
  destruct post as [|p0 [|p1 [|p2 post]]]; simpl in Hp; try lia.
  - simpl. now rewrite !app_nil_r.
  - change (Z.of_nat (length [p0])) with 1 in *. cbn [Z.eqb Pos.eqb].
    rewrite (buf_at_offset body _ 0 p0) by (reflexivity || lia).
    reflexivity.
  - change (Z.of_nat (length [p0; p1])) with 2 in *. cbn [Z.eqb Pos.eqb].
    rewrite (buf_at_offset body _ 0 p0), (buf_at_offset body _ 1 p1)
      by (reflexivity || lia).
    reflexivity.
Qed.

(** ** The loop of [decode] *)

Lemma str_at_offset K (pre l : list byte) (k : Z) (x : byte) :
  0 <= k ->
  Z.of_nat (length pre) + k < 2 ^ 64 ->
  nth_error l (Z.to_nat k) = Some x ->
  str_at K (pre ++ l) (wrap_size (Z.of_nat (length pre) + k)) = Returned x.
Proof.
  intros Hk Hlt Hx. rewrite wrap_size_small by lia.
  unfold str_at. now rewrite nth_error_offset, Hx.
Qed.

Lemma decode_loop_eq fuel K s len pos ret :
  decode_loop fuel K s len pos ret =
  if pos <? len then
    match fuel with
    | O => OutOfFuel
    | S fuel' =>
        c0 <- str_at K s (wrap_size (pos + 0)) ;;
        c1 <- str_at K s (wrap_size (pos + 1)) ;;
        c2 <- str_at K s (wrap_size (pos + 2)) ;;
        c3 <- str_at K s (wrap_size (pos + 3)) ;;
        bs <- decode_chunk4 c0 c1 c2 c3 ;;
        decode_loop fuel' K s len (wrap_size (pos + 4)) (ret ++ bs)
    end
  else Returned (pos, ret).
Proof. destruct fuel; reflexivity. Qed.

Lemma decode_groups_more c0 c1 c2 c3 rest :
  rest <> [] ->
  decode_groups (c0 :: c1 :: c2 :: c3 :: rest) =
  (bs <- decode_chunk4 c0 c1 c2 c3 ;; t <- decode_groups rest ;; Returned (bs ++ t)).
Proof. destruct rest; [contradiction|reflexivity]. Qed.

Lemma decode_last_final K pre c0 c1 c2 c3 ret :
  Z.of_nat (length pre) + 4 < 2 ^ 64 ->
  decode_last K (pre ++ [c0; c1; c2; c3]) (Z.of_nat (length pre)) ret =
  (bs <- decode_final c0 c1 c2 c3 ;; Returned (ret ++ bs)).
Proof.
  intros Hlt. unfold decode_last, decode_final.
  rewrite (str_at_offset K pre _ 2 c2) by (reflexivity || lia). cbn [bind].
  destruct (is_trailing c2).
  - rewrite (str_at_offset K pre _ 0 c0), (str_at_offset K pre _ 1 c1)
      by (reflexivity || lia).
    reflexivity.
  - rewrite (str_at_offset K pre _ 3 c3) by (reflexivity || lia). cbn [bind].
    destruct (is_trailing c3);
      rewrite (str_at_offset K pre _ 0 c0), (str_at_offset K pre _ 1 c1)
        by (reflexivity || lia);
      reflexivity.
Qed.

(** On [4 * (m + 1)] characters the loop followed by the branch on the last
    group computes [decode_groups]. *)
Lemma decode_loop_groups K (m : nat) :
  forall rest pre fuel ret pos len,
    length rest = (4 * S m)%nat ->
    pos = Z.of_nat (length pre) ->
    len = pos + 4 * Z.of_nat m ->
    len + 4 < 2 ^ 64 ->
    (m <= fuel)%nat ->
    (st <- decode_loop fuel K (pre ++ rest) len pos ret ;;
     let '(pos', ret') := st in decode_last K (pre ++ rest) pos' ret') =
    (bs <- decode_groups rest ;; Returned (ret ++ bs)).
Proof.
  induction m as [|m IH]; intros rest pre fuel ret pos len Hr Hpos Hlen Hlt Hf.
  - destruct rest as [|c0 [|c1 [|c2 [|c3 [|c4 rest]]]]]; try discriminate.
    rewrite decode_loop_eq.
    replace (pos <? len) with false by (symmetry; apply Z.ltb_ge; lia).
    cbn [bind]. subst pos. rewrite decode_last_final by lia. reflexivity.
  - destruct rest as [|c0 [|c1 [|c2 [|c3 rest]]]]; try (simpl in Hr; lia).
    assert (Hne : rest <> []) by (intros ->; simpl in Hr; lia).
    destruct fuel as [|fuel]; [lia|].
    rewrite decode_loop_eq, decode_groups_more by assumption.
    replace (pos <? len) with true by (symmetry; apply Z.ltb_lt; lia).
    subst pos.
    rewrite (str_at_offset K pre _ 0 c0), (str_at_offset K pre _ 1 c1),
      (str_at_offset K pre _ 2 c2), (str_at_offset K pre _ 3 c3)
      by (reflexivity || lia).
    cbn [bind].
    destruct (decode_chunk4 c0 c1 c2 c3) as [bs| | |]; try reflexivity.
    cbn [bind]. rewrite wrap_size_small by lia.
    replace (pre ++ c0 :: c1 :: c2 :: c3 :: rest)
      with ((pre ++ [c0; c1; c2; c3]) ++ rest)
      by (rewrite <- app_assoc; reflexivity).
    rewrite (IH rest (pre ++ [c0; c1; c2; c3]) fuel _ _ len).
    + destruct (decode_groups rest); try reflexivity.
      cbn [bind]. now rewrite app_assoc.
    + simpl in Hr. lia.
    + rewrite length_app. simpl. lia.
    + lia.
    + assumption.
    + lia.
Qed.

(** A string whose length is a positive multiple of four: what [decode]
    returns for it is [decode_groups]. *)
Lemma decode_body_groups K (s : list byte) (fuel m : nat) :
  length s = (4 * S m)%nat ->
  Z.of_nat (length s) < 2 ^ 64 ->
  (m <= fuel)%nat ->
  decode_body fuel K s = decode_groups s.
Proof.
  intros Hs Hlt Hf. unfold decode_body. cbv zeta.
  rewrite wrap_size_small by lia.
  pose proof (decode_loop_groups K m s [] fuel [] 0 (Z.of_nat (length s) - 4)) as L.
  cbn [app length] in L. rewrite L by lia.
  destruct (decode_groups s); reflexivity.
Qed.

Lemma decode_groups_spec K (s : list byte) (m : nat) :
  length s = (4 * S m)%nat ->
  Z.of_nat (length s) < 2 ^ 64 ->
  decode K s false = decode_groups s.
Proof.
  intros Hs Hlt. unfold decode, decode_fuel.
  destruct s as [|c s']; [discriminate|].
  apply (decode_body_groups K _ _ m); [assumption|assumption|lia].
Qed.

(** ** Length of the encoding *)

Lemma encode_chunk3_length tab b0 b1 b2 : length (encode_chunk3 tab b0 b1 b2) = 4%nat.
Proof. reflexivity. Qed.

Lemma encode_groups_full_length tab t (m : nat) :
  forall body, length body = (3 * m)%nat ->
               length (encode_groups tab t body) = (4 * m)%nat.
Proof.
  induction m as [|m IH]; intros body Hb.
  - destruct body; [reflexivity|discriminate].
  - destruct body as [|b0 [|b1 [|b2 body]]]; try (simpl in Hb; lia).
    cbn [encode_groups]. rewrite length_app, encode_chunk3_length, IH
      by (simpl in Hb; lia).
    lia.
Qed.

Lemma encode_groups_length tab t (bs : list byte) :
  length (encode_groups tab t bs) = (4 * ((length bs + 2) / 3))%nat.
Proof.
  destruct (split_groups3 bs) as (m & body & post & E & Hb & Hp & Hm).
  subst bs. rewrite (encode_groups_app _ _ m), !length_app by assumption.
  rewrite (encode_groups_full_length _ _ m) by assumption. rewrite Hb.
  destruct post as [|p0 [|p1 [|p2 post]]]; simpl in Hp; try lia.
  - cbn [encode_groups length].
    replace (3 * m + 0 + 2)%nat with (2 + m * 3)%nat by lia.
    rewrite Nat.div_add by lia. simpl. lia.
  - cbn [encode_groups length encode_chunk1].
    replace (3 * m + 1 + 2)%nat with (3 + m * 3)%nat by lia.
    rewrite Nat.div_add by lia. simpl. lia.
  - cbn [encode_groups length encode_chunk2].
    replace (3 * m + 2 + 2)%nat with (4 + m * 3)%nat by lia.
    rewrite Nat.div_add by lia. simpl. lia.
Qed.

Lemma encode_groups_nil tab t (bs : list byte) :
  encode_groups tab t bs = [] -> bs = [].
Proof.
  destruct bs as [|b0 [|b1 [|b2 bs]]]; try discriminate. reflexivity.
Qed.

(** ** Decoding what was encoded, a group at a time *)

Lemma decode_encode_groups url (m : nat) :
  forall body post,
    length body = (3 * m)%nat -> (length post < 3)%nat -> body ++ post <> [] ->
    decode_groups
      (encode_groups (to_base64_chars url) (trailing_char_of url) (body ++ post)) =
    Returned (body ++ post).
Proof.
  induction m as [|m IH]; intros body post Hb Hp Hne.
  - destruct body; [|discriminate]. cbn [app] in *.
    destruct post as [|p0 [|p1 [|p2 post]]]; simpl in Hp; try lia.
    + contradiction.
    + destruct (decode_encode_chunk1 url p0) as (c0 & c1 & E & D).
      cbn [encode_groups]. rewrite E. cbn [decode_groups]. unfold decode_final.
      now rewrite trailing_char_is_trailing.
    + destruct (decode_encode_chunk2 url p0 p1) as (c0 & c1 & c2 & E & D & T2).
      cbn [encode_groups]. rewrite E. cbn [decode_groups]. unfold decode_final.
      now rewrite T2, trailing_char_is_trailing.
  - destruct body as [|b0 [|b1 [|b2 body]]]; try (simpl in Hb; lia).
    destruct (decode_encode_chunk3 url b0 b1 b2) as (c0 & c1 & c2 & c3 & E & D & T2 & T3).
    cbn [app encode_groups]. rewrite E. cbn [app].
    destruct (list_eq_dec Byte.byte_eq_dec (body ++ post) []) as [Hnil|Hmore].
    + rewrite Hnil. cbn [encode_groups decode_groups]. unfold decode_final.
      now rewrite T2, T3.
    + rewrite decode_groups_more
        by (intros C; apply Hmore; eapply encode_groups_nil; eassumption).
      rewrite D. cbn [bind]. rewrite IH by (assumption || (simpl in Hb; lia)).
      reflexivity.
Qed.

(** Decoding the groups of any buffer gives the buffer back. *)
Lemma decode_of_encode_groups (K : String_param) (url : bool) (bs : list byte) :
  Z.of_nat (length bs) < 2 ^ 61 ->
  decode K (encode_groups (to_base64_chars url) (trailing_char_of url) bs) false =
  Returned bs.
Proof.
  intros Hlt.
  destruct bs as [|b bs']; [reflexivity|].
  set (bs := b :: bs') in *.
  pose proof (encode_groups_length (to_base64_chars url) (trailing_char_of url) bs) as L.
  assert (Hk : (1 <= (length bs + 2) / 3)%nat).
  { apply Nat.div_le_lower_bound; subst bs; simpl; lia. }
  assert (Hu : ((length bs + 2) / 3 <= length bs + 2)%nat).
  { apply Nat.Div0.div_le_upper_bound. lia. }
  rewrite (decode_groups_spec K _ ((length bs + 2) / 3 - 1)) by lia.
  destruct (split_groups3 bs) as (m & body & post & E & Hb & Hp & _).
  rewrite E. apply (decode_encode_groups url m); try assumption.
  rewrite <- E. subst bs. discriminate.
Qed.

(** X1.  For a buffer of fewer than [2 ^ 32] bytes and either alphabet:
    decoding what [base64_encode] returns gives the buffer back. *)
Theorem decode_base64_encode (K : String_param) (fuel : nat) (bs : list byte) (url : bool) :
  Z.of_nat (length bs) < 2 ^ 32 ->
  (length bs / 3 <= fuel)%nat ->
  (e <- base64_encode fuel bs url ;; decode K e false) = Returned bs.
Proof.
  intros Hlt Hf. rewrite base64_encode_groups by assumption. cbn [bind].
  apply decode_of_encode_groups. lia.
Qed.

Lemma decode_base64_encode_witness :
  (e <- base64_encode 1 (chars "Ma") true ;; decode std_string_view e false) =
  Returned (chars "Ma").
Proof.
  apply (decode_base64_encode std_string_view 1 (chars "Ma") true).
  - reflexivity.
  - vm_compute. lia.
Defined.

(** ** The characters of the encoding *)

Lemma alphabet_tab url i : 0 <= i < 64 -> alphabet_char url (tab_at (to_base64_chars url) i).
Proof. intros Hi. exists i. split; [assumption|reflexivity]. Qed.

Lemma encode_chunk3_alphabet url b0 b1 b2 :
  Forall (alphabet_char url) (encode_chunk3 (to_base64_chars url) b0 b1 b2).
Proof.
  unfold encode_chunk3.
  repeat apply Forall_cons; try apply Forall_nil; apply alphabet_tab;
    try apply land63_range.
  apply chunk3_indices.
Qed.

Lemma encode_chunk2_alphabet url b0 b1 :
  exists c0 c1 c2,
    encode_chunk2 (to_base64_chars url) (trailing_char_of url) b0 b1 =
    [c0; c1; c2; trailing_char_of url] /\
    alphabet_char url c0 /\ alphabet_char url c1 /\ alphabet_char url c2.
Proof.
  unfold encode_chunk2. do 3 eexists. split; [reflexivity|].
  repeat split; apply alphabet_tab; try apply land63_range.
  apply chunk2_indices.
Qed.

Lemma encode_chunk1_alphabet url b0 :
  exists c0 c1,
    encode_chunk1 (to_base64_chars url) (trailing_char_of url) b0 =
    [c0; c1; trailing_char_of url; trailing_char_of url] /\
    alphabet_char url c0 /\ alphabet_char url c1.
Proof.
  unfold encode_chunk1. do 2 eexists. split; [reflexivity|].
  repeat split; apply alphabet_tab; try apply land63_range.
  apply chunk1_indices.
Qed.

Lemma alphabet_not_trailing url c url' :
  alphabet_char url c -> Byte.eqb c (trailing_char_of url') = false.
Proof.
  intros (i & Hi & ->). pose proof (tab_not_trailing url i Hi) as H.
  unfold is_trailing in H. apply orb_false_iff in H. destruct H as [H1 H2].
  destruct url'; assumption.
Qed.

Lemma alphabet_not_newline url c : alphabet_char url c -> Byte.eqb c ch_newline = false.
Proof. intros (i & Hi & ->). now apply tab_not_newline. Qed.

Lemma alphabet_is_symbol url c : alphabet_char url c -> is_symbol c = true.
Proof.
  intros (i & Hi & ->). unfold is_symbol. rewrite from_at_tab by assumption.
  apply negb_true_iff, Z.eqb_neq. lia.
Qed.

Lemma encode_groups_chars url (bs : list byte) :
  Forall (encoded_char url)
         (encode_groups (to_base64_chars url) (trailing_char_of url) bs).
Proof.
  destruct (split_groups3 bs) as (m & body & post & E & Hb & Hp & _). subst bs.
  revert body Hb. induction m as [|m IH]; intros body Hb.
  - destruct body; [|discriminate]. cbn [app].
    destruct post as [|p0 [|p1 [|p2 post]]]; simpl in Hp; try lia.
    + constructor.
    + destruct (encode_chunk1_alphabet url p0) as (c0 & c1 & E & A0 & A1).
      cbn [encode_groups]. rewrite E.
      repeat apply Forall_cons; try apply Forall_nil; (now left) || (now right).
    + destruct (encode_chunk2_alphabet url p0 p1) as (c0 & c1 & c2 & E & A0 & A1 & A2).
      cbn [encode_groups]. rewrite E.
      repeat apply Forall_cons; try apply Forall_nil; (now left) || (now right).
  - destruct body as [|b0 [|b1 [|b2 body]]]; try (simpl in Hb; lia).
    cbn [app encode_groups]. apply Forall_app. split.
    + eapply Forall_impl; [|apply encode_chunk3_alphabet]. intros c Hc. now left.
    + apply IH. simpl in Hb. lia.
Qed.

Lemma encoded_char_not_newline url c : encoded_char url c -> Byte.eqb c ch_newline = false.
Proof.
  intros [H | ->]; [now apply (alphabet_not_newline url)|apply trailing_char_not_newline].
Qed.

(** ** Trailing characters *)

Lemma trailing_count_snoc p (s : list byte) (c : byte) :
  trailing_count p (s ++ [c]) =
  if Byte.eqb c p then S (trailing_count p s) else O.
Proof. unfold trailing_count. rewrite rev_app_distr. reflexivity. Qed.

Lemma trailing_count_snoc_other p (s : list byte) (c : byte) :
  Byte.eqb c p = false -> trailing_count p (s ++ [c]) = O.
Proof. intros H. now rewrite trailing_count_snoc, H. Qed.

Lemma byte_eqb_refl (c : byte) : Byte.eqb c c = true.
Proof. now apply Byte.byte_dec_lb. Qed.

Lemma trailing_count_full url t' (m : nat) :
  forall body acc,
    length body = (3 * m)%nat ->
    trailing_count (trailing_char_of t') acc = O ->
    trailing_count (trailing_char_of t')
      (acc ++ encode_groups (to_base64_chars url) (trailing_char_of url) body) = O.
Proof.
  induction m as [|m IH]; intros body acc Hb Hacc.
  - destruct body; [|discriminate]. cbn [encode_groups]. now rewrite app_nil_r.
  - destruct body as [|b0 [|b1 [|b2 body]]]; try (simpl in Hb; lia).
    cbn [encode_groups]. rewrite app_assoc. apply IH; [simpl in Hb; lia|].
    pose proof (encode_chunk3_alphabet url b0 b1 b2) as A.
    unfold encode_chunk3 in *.
    inversion A as [|? ? _ A1]; subst. inversion A1 as [|? ? _ A2]; subst.
    inversion A2 as [|? ? _ A3]; subst. inversion A3 as [|? ? A4 _]; subst.
    match goal with
    | |- context [acc ++ [?a; ?b; ?c; ?d]] =>
        change (acc ++ [a; b; c; d]) with (acc ++ [a; b; c] ++ [d])
    end.
    rewrite app_assoc. apply trailing_count_snoc_other.
    now apply (alphabet_not_trailing url).
Qed.

(** The number of trailing characters at the end of [encode_groups]. *)
Lemma encode_groups_trailing url (bs : list byte) :
  trailing_count (trailing_char_of url)
    (encode_groups (to_base64_chars url) (trailing_char_of url) bs) =
  match (length bs mod 3)%nat with
  | 0%nat => 0%nat
  | 1%nat => 2%nat
  | _ => 1%nat
  end.
Proof.
  destruct (split_groups3 bs) as (m & body & post & E & Hb & Hp & _). subst bs.
  rewrite (encode_groups_app _ _ m) by assumption.
  assert (Hmod : (length (body ++ post) mod 3 = length post)%nat).
  { rewrite length_app, Hb, Nat.add_comm, Nat.mul_comm, Nat.Div0.mod_add.
    now apply Nat.mod_small. }
  rewrite Hmod.
  pose proof (trailing_count_full url url m body [] Hb eq_refl) as F. cbn [app] in F.
  destruct post as [|p0 [|p1 [|p2 post]]]; simpl in Hp; try lia.
  - cbn [encode_groups length]. now rewrite app_nil_r.
  - destruct (encode_chunk1_alphabet url p0) as (c0 & c1 & E & A0 & A1).
    cbn [encode_groups length]. rewrite E.
    set (G := encode_groups _ _ body) in *.
    change (G ++ [c0; c1; trailing_char_of url; trailing_char_of url])
      with (G ++ [c0; c1; trailing_char_of url] ++ [trailing_char_of url]).
    rewrite app_assoc, trailing_count_snoc, byte_eqb_refl.
    change (G ++ [c0; c1; trailing_char_of url])
      with (G ++ [c0; c1] ++ [trailing_char_of url]).
    rewrite app_assoc, trailing_count_snoc, byte_eqb_refl.
    change (G ++ [c0; c1]) with (G ++ [c0] ++ [c1]).
    rewrite app_assoc, trailing_count_snoc_other; [reflexivity|].
    now apply (alphabet_not_trailing url).
  - destruct (encode_chunk2_alphabet url p0 p1) as (c0 & c1 & c2 & E & A0 & A1 & A2).
    cbn [encode_groups length]. rewrite E.
    set (G := encode_groups _ _ body) in *.
    change (G ++ [c0; c1; c2; trailing_char_of url])
      with (G ++ [c0; c1; c2] ++ [trailing_char_of url]).
    rewrite app_assoc, trailing_count_snoc, byte_eqb_refl.
    change (G ++ [c0; c1; c2]) with (G ++ [c0; c1] ++ [c2]).
    rewrite app_assoc, trailing_count_snoc_other; [reflexivity|].
    now apply (alphabet_not_trailing url).
Qed.

(** ** The loop of [insert_linebreaks] *)

Lemma linebreak_loop_eq fuel str distance pos :
  linebreak_loop fuel str distance pos =
  if pos <? Z.of_nat (length str) then
    match fuel with
    | O => OutOfFuel
    | S fuel' =>
        linebreak_loop fuel' (insert_newline str pos) distance
                       (wrap_size (pos + wrap_size (distance + 1)))
    end
  else Returned str.
Proof. destruct fuel; reflexivity. Qed.

Lemma insert_newline_app (done rest : list byte) (d : nat) :
  (d < length rest)%nat ->
  insert_newline (done ++ rest) (Z.of_nat (length done + d)) =
  (done ++ firstn d rest ++ [ch_newline]) ++ skipn d rest.
Proof.
  intros Hd. unfold insert_newline. rewrite Nat2Z.id.
  rewrite firstn_app_2, skipn_app.
  rewrite skipn_all2 by lia.
  replace (length done + d - length done)%nat with d by lia.
  cbn [app]. rewrite <- !app_assoc. reflexivity.
Qed.

Lemma linebreak_loop_lines (d : nat) (fuel : nat) :
  forall done rest,
    (1 <= d)%nat ->
    (length rest <= S fuel * d)%nat ->
    Z.of_nat (length done + 2 * length rest + 2 * d) + 2 < 2 ^ 64 ->
    linebreak_loop fuel (done ++ rest) (Z.of_nat d) (Z.of_nat (length done + d)) =
    Returned (done ++ break_lines fuel d rest).
Proof.
  induction fuel as [|fuel IH]; intros done rest Hd Hf Hlt;
    rewrite linebreak_loop_eq, length_app.
  - replace (Z.of_nat (length done + d) <? Z.of_nat (length done + length rest))
      with false by (symmetry; apply Z.ltb_ge; lia).
    reflexivity.
  - cbn [break_lines]. destruct (Nat.ltb_spec d (length rest)) as [Hlong|Hshort].
    + replace (Z.of_nat (length done + d) <? Z.of_nat (length done + length rest))
        with true by (symmetry; apply Z.ltb_lt; lia).
      rewrite insert_newline_app by assumption.
      rewrite (wrap_size_small (Z.of_nat d + 1)) by lia.
      rewrite wrap_size_small by lia.
      replace (Z.of_nat (length done + d) + (Z.of_nat d + 1))
        with (Z.of_nat (length (done ++ firstn d rest ++ [ch_newline]) + d)).
      2:{ rewrite !length_app, length_firstn. cbn [length]. lia. }
      rewrite IH.
      * rewrite <- !app_assoc. reflexivity.
      * assumption.
      * rewrite length_skipn. rewrite Nat.mul_succ_l in Hf. lia.
      * rewrite !length_app, length_firstn, length_skipn. cbn [length]. lia.
    + replace (Z.of_nat (length done + d) <? Z.of_nat (length done + length rest))
        with false by (symmetry; apply Z.ltb_ge; lia).
      reflexivity.
Qed.

Lemma erase_newlines_app (s1 s2 : list byte) :
  erase_newlines (s1 ++ s2) = erase_newlines s1 ++ erase_newlines s2.
Proof. apply filter_app. Qed.

Lemma erase_break_lines (d fuel : nat) :
  forall rest, erase_newlines (break_lines fuel d rest) = erase_newlines rest.
Proof.
  induction fuel as [|fuel IH]; intros rest; [reflexivity|].
  cbn [break_lines]. destruct (d <? length rest)%nat; [|reflexivity].
  rewrite erase_newlines_app.
  change (erase_newlines (ch_newline :: break_lines fuel d (skipn d rest)))
    with (erase_newlines (break_lines fuel d (skipn d rest))).
  rewrite IH, <- erase_newlines_app, firstn_skipn. reflexivity.
Qed.

Lemma erase_no_newline (s : list byte) : no_newline s -> erase_newlines s = s.
Proof.
  induction 1 as [|c s Hc _ IH]; [reflexivity|].
  cbn [erase_newlines filter]. rewrite Hc. cbn [negb].
  unfold erase_newlines in IH. now rewrite IH.
Qed.







Lemma break_lines_nil (fuel d : nat) : break_lines fuel d [] = [].
Proof. destruct fuel; reflexivity. Qed.

Lemma insert_linebreaks_lines (fuel d : nat) (str : list byte) :
  (1 <= d)%nat ->
  (length str <= S fuel * d)%nat ->
  Z.of_nat (2 * length str + 2 * d) + 2 < 2 ^ 64 ->
  insert_linebreaks fuel str (Z.of_nat d) = Returned (break_lines fuel d str).
Proof.
  intros Hd Hf Hlt. unfold insert_linebreaks.
  destruct str as [|c str']; [now rewrite break_lines_nil|].
  apply (linebreak_loop_lines d fuel [] (c :: str')); cbn [length app] in *; lia.
Qed.


Lemma break_lines_length_le (d fuel : nat) :
  (1 <= d)%nat ->
  forall rest, (length (break_lines fuel d rest) <= 2 * length rest)%nat.
Proof.
  intros Hd.
  induction fuel as [|fuel IH]; intros rest; cbn [break_lines]; [lia|].
  destruct (Nat.ltb_spec d (length rest)) as [Hlong|Hle]; [|lia].
  rewrite length_app, length_firstn. cbn [length].
  specialize (IH (skipn d rest)). rewrite length_skipn in IH.
  lia.
Qed.




(** ** [decode] ends for every input *)

Lemma str_at_cases K s i :
  (exists c, str_at K s i = Returned c) \/ str_at K s i = Undefined.
Proof.
  unfold str_at. destruct (nth_error s (Z.to_nat i)); [left; eauto|].
  destruct K; [|now right].
  destruct (i =? Z.of_nat (length s)); [left; eauto|now right].
Qed.

Lemma pos_of_char_cases c :
  (exists p, pos_of_char c = Returned p) \/ pos_of_char c = Thrown.
Proof. unfold pos_of_char. destruct (negb _); [left; eauto|now right]. Qed.

Lemma decode_chunk4_cases c0 c1 c2 c3 :
  (exists bs, decode_chunk4 c0 c1 c2 c3 = Returned bs) \/
  decode_chunk4 c0 c1 c2 c3 = Thrown.
Proof.
  unfold decode_chunk4.
  destruct (pos_of_char_cases c0) as [[p0 ->]| ->]; [|now right].
  destruct (pos_of_char_cases c1) as [[p1 ->]| ->]; [|now right].
  destruct (pos_of_char_cases c2) as [[p2 ->]| ->]; [|now right].
  destruct (pos_of_char_cases c3) as [[p3 ->]| ->]; [|now right].
  left. eexists. reflexivity.
Qed.

Lemma decode_chunk3_cases c0 c1 c2 :
  (exists bs, decode_chunk3 c0 c1 c2 = Returned bs) \/ decode_chunk3 c0 c1 c2 = Thrown.
Proof.
  unfold decode_chunk3.
  destruct (pos_of_char_cases c0) as [[p0 ->]| ->]; [|now right].
  destruct (pos_of_char_cases c1) as [[p1 ->]| ->]; [|now right].
  destruct (pos_of_char_cases c2) as [[p2 ->]| ->]; [|now right].
  left. eexists. reflexivity.
Qed.

Lemma decode_chunk2_cases c0 c1 :
  (exists bs, decode_chunk2 c0 c1 = Returned bs) \/ decode_chunk2 c0 c1 = Thrown.
Proof.
  unfold decode_chunk2.
  destruct (pos_of_char_cases c0) as [[p0 ->]| ->]; [|now right].
  destruct (pos_of_char_cases c1) as [[p1 ->]| ->]; [|now right].
  left. eexists. reflexivity.
Qed.

Lemma decode_chunk4_nul c0 c1 c2 : decode_chunk4 c0 c1 c2 ch_nul = Thrown.
Proof.
  unfold decode_chunk4.
  destruct (pos_of_char_cases c0) as [[p0 ->]| ->]; [|reflexivity].
  destruct (pos_of_char_cases c1) as [[p1 ->]| ->]; [|reflexivity].
  destruct (pos_of_char_cases c2) as [[p2 ->]| ->]; reflexivity.
Qed.

Ltac step_read K s i :=
  let c := fresh "c" in
  destruct (str_at_cases K s i) as [[c ->]| ->]; cbn [bind]; [|discriminate].

Lemma decode_last_ends K s pos ret : decode_last K s pos ret <> OutOfFuel.
Proof.
  unfold decode_last.
  step_read K s (wrap_size (pos + 2)).
  destruct (is_trailing c).
  - step_read K s (wrap_size (pos + 0)). step_read K s (wrap_size (pos + 1)).
    destruct (decode_chunk2_cases c0 c1) as [[bs ->]| ->]; discriminate.
  - step_read K s (wrap_size (pos + 3)).
    destruct (is_trailing c0).
    + step_read K s (wrap_size (pos + 0)). step_read K s (wrap_size (pos + 1)).
      destruct (decode_chunk3_cases c1 c2 c) as [[bs ->]| ->]; discriminate.
    + step_read K s (wrap_size (pos + 0)). step_read K s (wrap_size (pos + 1)).
      destruct (decode_chunk4_cases c1 c2 c c0) as [[bs ->]| ->]; discriminate.
Qed.

(** A string of at least four characters: a turn of the loop for each
    group but the last. *)
Lemma decode_loop_ends (fuel : nat) K s len :
  forall pos ret,
    0 <= pos -> len + 4 < 2 ^ 64 -> len <= pos + 4 * Z.of_nat fuel ->
    decode_loop fuel K s len pos ret <> OutOfFuel.
Proof.
  induction fuel as [|fuel IH]; intros pos ret Hpos Hlt Hf; rewrite decode_loop_eq.
  - replace (pos <? len) with false by (symmetry; apply Z.ltb_ge; lia). discriminate.
  - destruct (Z.ltb_spec pos len) as [Hin|Hout]; [|discriminate].
    step_read K s (wrap_size (pos + 0)). step_read K s (wrap_size (pos + 1)).
    step_read K s (wrap_size (pos + 2)). step_read K s (wrap_size (pos + 3)).
    destruct (decode_chunk4_cases c c0 c1 c2) as [[bs ->]| ->]; cbn [bind];
      [|discriminate].
    rewrite wrap_size_small by lia. apply IH; lia.
Qed.

(** A string of one to three characters: [in_len - 4] wraps around, the loop
    is entered, and its first turn reads past the end of the string.  A
    [std::string] of three characters has its NUL at index 3, which
    [pos_of_char] rejects. *)
Lemma decode_loop_short (fuel : nat) K s ret :
  (1 <= length s <= 3)%nat ->
  decode_loop (S fuel) K s (wrap_size (Z.of_nat (length s) - 4)) 0 ret =
  match K, length s with
  | const_std_string_ref, 3%nat => Thrown
  | _, _ => Undefined
  end.
Proof.
  intros Hs.
  destruct s as [|c0 [|c1 [|c2 [|c3 s]]]]; cbn [length] in Hs; try lia;
    cbn [length]; rewrite decode_loop_eq.
  - change (0 <? wrap_size (Z.of_nat 1 - 4)) with true. cbv iota.
    change (wrap_size (0 + 0)) with 0. change (wrap_size (0 + 1)) with 1.
    change (wrap_size (0 + 2)) with 2. change (wrap_size (0 + 3)) with 3.
    destruct K; reflexivity.
  - change (0 <? wrap_size (Z.of_nat 2 - 4)) with true. cbv iota.
    change (wrap_size (0 + 0)) with 0. change (wrap_size (0 + 1)) with 1.
    change (wrap_size (0 + 2)) with 2. change (wrap_size (0 + 3)) with 3.
    destruct K; reflexivity.
  - change (0 <? wrap_size (Z.of_nat 3 - 4)) with true. cbv iota.
    change (wrap_size (0 + 0)) with 0. change (wrap_size (0 + 1)) with 1.
    change (wrap_size (0 + 2)) with 2. change (wrap_size (0 + 3)) with 3.
    destruct K.
    + change (str_at const_std_string_ref [c0; c1; c2] 0) with (Returned c0).
      change (str_at const_std_string_ref [c0; c1; c2] 1) with (Returned c1).
      change (str_at const_std_string_ref [c0; c1; c2] 2) with (Returned c2).
      change (str_at const_std_string_ref [c0; c1; c2] 3) with (Returned ch_nul).
      cbn [bind]. now rewrite decode_chunk4_nul.
    + reflexivity.
Qed.

Lemma decode_body_ends (fuel : nat) K s :
  s <> [] -> Z.of_nat (length s) < 2 ^ 64 -> (length s <= 4 * fuel)%nat ->
  decode_body fuel K s <> OutOfFuel.
Proof.
  intros Hne Hlt Hf. unfold decode_body. cbv zeta.
  destruct (Nat.le_gt_cases 4 (length s)) as [Hlong|Hshort].
  - rewrite wrap_size_small by lia.
    destruct (decode_loop fuel K s (Z.of_nat (length s) - 4) 0 []) as [[pos ret]| | |] eqn:E;
      cbn [bind]; try discriminate.
    + apply decode_last_ends.
    + exfalso. revert E. apply decode_loop_ends; lia.
  - assert (Hs : (1 <= length s <= 3)%nat).
    { destruct s; [contradiction|]. cbn [length] in *. lia. }
    destruct fuel as [|fuel]; [lia|].
    rewrite (decode_loop_short fuel K s [] Hs).
    destruct K, (length s) as [|[|[|[|n]]]]; discriminate.
Qed.

Lemma decode_loop_more_fuel (fuel : nat) K s len :
  forall fuel' pos ret,
    (fuel <= fuel')%nat ->
    decode_loop fuel K s len pos ret <> OutOfFuel ->
    decode_loop fuel' K s len pos ret = decode_loop fuel K s len pos ret.
Proof.
  induction fuel as [|fuel IH]; intros fuel' pos ret Hle Hend;
    rewrite decode_loop_eq in Hend; rewrite (decode_loop_eq fuel'), (decode_loop_eq _ K).
  - destruct (pos <? len); [contradiction|reflexivity].
  - destruct (pos <? len); [|reflexivity].
    destruct fuel' as [|fuel']; [lia|].
    destruct (str_at K s (wrap_size (pos + 0))); try reflexivity.
    destruct (str_at K s (wrap_size (pos + 1))); try reflexivity.
    destruct (str_at K s (wrap_size (pos + 2))); try reflexivity.
    destruct (str_at K s (wrap_size (pos + 3))); try reflexivity.
    cbn [bind] in *.
    destruct (decode_chunk4 a a0 a1 a2); try reflexivity.
    cbn [bind] in *. apply IH; [lia|assumption].
Qed.

Lemma decode_body_more_fuel (fuel fuel' : nat) K s :
  (fuel <= fuel')%nat ->
  decode_body fuel K s <> OutOfFuel ->
  decode_body fuel' K s = decode_body fuel K s.
Proof.
  intros Hle Hend. unfold decode_body in *. cbv zeta in *.
  rewrite (decode_loop_more_fuel fuel); [reflexivity|assumption|].
  intros E. apply Hend. now rewrite E.
Qed.

Lemma erase_newlines_length (s : list byte) :
  (length (erase_newlines s) <= length s)%nat.
Proof. apply filter_length_le. Qed.

(** The loop of [decode] never runs out of the fuel that [decode] gives it. *)
Theorem decode_terminates (K : String_param) (s : list byte) (remove_linebreaks : bool) :
  Z.of_nat (length s) < 2 ^ 64 ->
  decode K s remove_linebreaks <> OutOfFuel.
Proof.
  intros Hlt. unfold decode, decode_fuel.
  destruct s as [|c s']; [discriminate|].
  set (s := c :: s') in *.
  destruct remove_linebreaks.
  - pose proof (erase_newlines_length s) as Hl.
    destruct (erase_newlines s) as [|c' copy] eqn:E; [discriminate|].
    apply decode_body_ends; [discriminate|lia|lia].
  - apply decode_body_ends; [discriminate|lia|lia].
Qed.

(** More fuel than [decode] gives changes nothing. *)
Theorem decode_fuel_enough (fuel : nat) (K : String_param) (s : list byte)
    (remove_linebreaks : bool) :
  Z.of_nat (length s) < 2 ^ 64 ->
  (length s <= fuel)%nat ->
  decode_fuel fuel K s remove_linebreaks = decode K s remove_linebreaks.
Proof.
  intros Hlt Hf. pose proof (decode_terminates K s remove_linebreaks Hlt) as T.
  unfold decode, decode_fuel in *.
  destruct s as [|c s']; [reflexivity|].
  destruct remove_linebreaks.
  - destruct (erase_newlines (c :: s')); [reflexivity|].
    now apply decode_body_more_fuel.
  - now apply decode_body_more_fuel.
Qed.

(** With [remove_linebreaks] set, [decode] is [decode<std::string const&>]
    with [remove_linebreaks] unset on the string without its newlines. *)
Theorem decode_removes_linebreaks_first (K : String_param) (s : list byte) :
  Z.of_nat (length s) < 2 ^ 64 ->
  decode K s true = decode const_std_string_ref (erase_newlines s) false.
Proof.
  intros Hlt. pose proof (erase_newlines_length s) as Hl.
  unfold decode at 1. unfold decode_fuel.
  destruct s as [|c s']; [reflexivity|].
  set (s := c :: s') in *.
  destruct (erase_newlines s) as [|c' copy] eqn:E; [reflexivity|].
  set (copy' := c' :: copy) in *.
  pose proof (decode_fuel_enough (length s) const_std_string_ref copy' false) as F.
  unfold decode_fuel in F. subst copy'. cbv iota in F. apply F; lia.
Qed.

(** [decode] with [remove_linebreaks] set, on the lines of an encoding. *)
Lemma decode_break_lines (K : String_param) (fuel d : nat) (bs : list byte) :
  (1 <= d)%nat ->
  Z.of_nat (length bs) < 2 ^ 60 ->
  decode K (break_lines fuel d
              (encode_groups (to_base64_chars false) (trailing_char_of false) bs)) true =
  Returned bs.
Proof.
  intros Hd Hlt.
  set (e := encode_groups (to_base64_chars false) (trailing_char_of false) bs).
  assert (Hn : no_newline e).
  { eapply Forall_impl; [|apply (encode_groups_chars false)].
    intros c Hc. now apply (encoded_char_not_newline false). }
  assert (Hl : length e = (4 * ((length bs + 2) / 3))%nat)
    by apply encode_groups_length.
  assert (Hu : ((length bs + 2) / 3 <= length bs + 2)%nat).
  { apply Nat.Div0.div_le_upper_bound. lia. }
  pose proof (break_lines_length_le d fuel Hd e) as Hb.
  rewrite decode_removes_linebreaks_first by lia.
  rewrite erase_break_lines, erase_no_newline by assumption.
  apply decode_of_encode_groups. lia.
Qed.


(** ** Buffers of [2 ^ 32] bytes and more

    [pos] is an [unsigned int] while [len] and [in_len] are [size_t]
    ([decode] declares its [pos] as [size_t]).  From [2 ^ 32 + 2] bytes on,
    [len] is at least [2 ^ 32] and [pos], which wraps around at [2 ^ 32],
    stays below it for ever. *)

Lemma wrap_uint_range (z : Z) : 0 <= wrap_uint z < 2 ^ 32.
Proof. apply Z.mod_pos_bound. lia. Qed.

Lemma buf_at_inside (bs : list byte) (i : Z) :
  0 <= i < Z.of_nat (length bs) -> exists b, buf_at bs i = Returned b.
Proof.
  intros Hi. unfold buf_at.
  destruct (nth_error bs (Z.to_nat i)) as [b|] eqn:E; [eauto|].
  apply nth_error_None in E. lia.
Qed.

Lemma encode_loop_never_ends (fuel : nat) tab (bs : list byte) (len : Z) :
  2 ^ 32 <= len -> 2 ^ 32 <= Z.of_nat (length bs) ->
  forall pos ret, 0 <= pos < 2 ^ 32 ->
                  encode_loop fuel tab bs len pos ret = OutOfFuel.
Proof.
  intros Hlen Hbs.
  induction fuel as [|fuel IH]; intros pos ret Hpos; rewrite encode_loop_eq;
    replace (pos <? len) with true by (symmetry; apply Z.ltb_lt; lia);
    [reflexivity|].
  destruct (buf_at_inside bs (wrap_uint (pos + 0))) as [b0 ->];
    [pose proof (wrap_uint_range (pos + 0)); lia|].
  destruct (buf_at_inside bs (wrap_uint (pos + 1))) as [b1 ->];
    [pose proof (wrap_uint_range (pos + 1)); lia|].
  destruct (buf_at_inside bs (wrap_uint (pos + 2))) as [b2 ->];
    [pose proof (wrap_uint_range (pos + 2)); lia|].
  cbn [bind]. apply IH. apply wrap_uint_range.
Qed.

(** [base64_encode] does not return for a buffer of [2 ^ 32 + 2] bytes or
    more, whatever the fuel. *)
Theorem base64_encode_never_ends (fuel : nat) (bs : list byte) (url : bool) :
  2 ^ 32 + 2 <= Z.of_nat (length bs) ->
  base64_encode fuel bs url = OutOfFuel.
Proof.
  intros Hbs. unfold base64_encode. cbv zeta.
  pose proof (Z.mod_pos_bound (Z.of_nat (length bs)) 3 ltac:(lia)) as Hm.
  rewrite encode_loop_never_ends; [reflexivity| | |lia].
  - assert (D : (3 | 2 ^ 32 + 2)) by (exists 1431655766; reflexivity).
    pose proof (Z.div_mod (Z.of_nat (length bs)) 3 ltac:(lia)) as E.
    destruct D as [q Hq].
    assert (q <= Z.of_nat (length bs) / 3) by lia.
    lia.
  - lia.
Qed.

Lemma zeros_4GiB_2_length : Z.of_nat (length zeros_4GiB_2) = 2 ^ 32 + 2.
Proof. unfold zeros_4GiB_2. rewrite repeat_length. apply Z2Nat.id. lia. Qed.

(** With [2 ^ 32 + 1] bytes the loop ends, at [pos = 2 ^ 32 - 1], and
    [case 2] of the [switch] reads [bytes_to_encode[pos + 1]] at index
    [0]: the sum wraps around. *)
Lemma base64_encode_wraps_last_read (fuel : nat) (b p0 p1 : byte) (body : list byte)
    (url : bool) :
  Z.of_nat (length (b :: body)) = 2 ^ 32 - 1 ->
  (Z.to_nat 1431655765 <= fuel)%nat ->
  base64_encode fuel ((b :: body) ++ [p0; p1]) url =
  Returned (encode_groups (to_base64_chars url) (trailing_char_of url)
              ((b :: body) ++ [p0; b])).
Proof.
  intros Hlen Hf. set (full := b :: body) in *.
  unfold base64_encode. cbv zeta.
  assert (Hin : Z.of_nat (length (full ++ [p0; p1])) = 2 ^ 32 + 1).
  { rewrite length_app. cbn [length]. lia. }
  rewrite Hin.
  change ((2 ^ 32 + 1) mod 3) with 2. change (2 ^ 32 + 1 - 2) with (2 ^ 32 - 1).
  pose proof (encode_loop_groups (to_base64_chars url) (trailing_char_of url)
                (Z.to_nat 1431655765) full [] [p0; p1] fuel [] 0 (2 ^ 32 - 1)) as L.
  cbn [app] in L. rewrite L; [|lia|reflexivity|lia|lia|assumption]. clear L.
  cbn [bind]. change (2 =? 2) with true. cbv iota.
  change (wrap_uint (2 ^ 32 - 1 + 1)) with 0.
  replace (2 ^ 32 - 1 + 0) with (Z.of_nat (length full) + 0) by lia.
  rewrite (buf_at_offset full _ 0 p0) by (reflexivity || lia).
  change (buf_at (full ++ [p0; p1]) 0) with (Returned b).
  cbn [bind].
  rewrite (encode_groups_app _ _ (Z.to_nat 1431655765)) by lia.
  reflexivity.
Qed.

Lemma one_then_zeros_split :
  one_then_zeros_4GiB = (x01 :: repeat x00 (Z.to_nat (2 ^ 32 - 2))) ++ [x00; x00].
Proof.
  unfold one_then_zeros_4GiB.
  replace (Z.to_nat (2 ^ 32)) with (Z.to_nat (2 ^ 32 - 2) + 2)%nat by lia.
  rewrite repeat_app. reflexivity.
Qed.

Lemma one_zeros_one_split :
  one_zeros_one_4GiB = (x01 :: repeat x00 (Z.to_nat (2 ^ 32 - 2))) ++ [x00; x01].
Proof.
  unfold one_zeros_one_4GiB.
  replace (Z.to_nat (2 ^ 32 - 1)) with (Z.to_nat (2 ^ 32 - 2) + 1)%nat by lia.
  rewrite repeat_app. cbn [repeat app]. rewrite <- app_assoc. reflexivity.
Qed.

Lemma one_zeros_one_length : Z.of_nat (length one_zeros_one_4GiB) = 2 ^ 32 + 1.
Proof.
  unfold one_zeros_one_4GiB. cbn [length]. rewrite length_app, repeat_length.
  cbn [length]. lia.
Qed.

Lemma one_zeros_one_differs : one_zeros_one_4GiB <> one_then_zeros_4GiB.
Proof.
  rewrite one_zeros_one_split, one_then_zeros_split.
  intros E. apply app_inv_head in E. discriminate.
Qed.

Lemma base64_encode_one_then_zeros (fuel : nat) (url : bool) :
  base64_encode (Z.to_nat 1431655765 + fuel) one_then_zeros_4GiB url =
  Returned (encode_groups (to_base64_chars url) (trailing_char_of url)
              one_zeros_one_4GiB).
Proof.
  rewrite one_then_zeros_split, one_zeros_one_split.
  apply base64_encode_wraps_last_read; [|lia].
  cbn [length]. rewrite repeat_length. lia.
Qed.

Lemma encode_mime_one_then_zeros (fuel : nat) :
  encode_mime (Z.to_nat 1431655765 + fuel) one_then_zeros_4GiB =
  Returned (break_lines (Z.to_nat 1431655765 + fuel) 76
              (encode_groups (to_base64_chars false) (trailing_char_of false)
                 one_zeros_one_4GiB)).
Proof.
  unfold encode_mime, encode_with_line_breaks, encode.
  rewrite base64_encode_one_then_zeros. cbn [bind].
  set (bs := one_zeros_one_4GiB).
  assert (Hbs : length bs = (Z.to_nat (2 ^ 32 - 2) + 3)%nat).
  { pose proof one_zeros_one_length. subst bs. lia. }
  pose proof (encode_groups_length (to_base64_chars false) (trailing_char_of false) bs) as L.
  assert (Hq : ((length bs + 2) / 3 = Z.to_nat 1431655766)%nat).
  { rewrite Hbs.
    replace (Z.to_nat (2 ^ 32 - 2) + 3 + 2)%nat with (1 + Z.to_nat 1431655766 * 3)%nat by lia.
    rewrite Nat.div_add by lia. change (1 / 3)%nat with 0%nat. lia. }
  rewrite Hq in L.
  apply (insert_linebreaks_lines _ 76); lia.
Qed.

(** ** When [decode] throws *)

Lemma pos_of_char_symbol c :
  pos_of_char c = if is_symbol c then Returned (from_at c) else Thrown.
Proof. reflexivity. Qed.

Lemma is_symbol_alphabets (c : byte) :
  is_symbol c =
  existsb (Byte.eqb c) (to_base64_chars false) || existsb (Byte.eqb c) (to_base64_chars true).
Proof. destruct c; reflexivity. Qed.

(** [is_symbol] holds of the characters of the two alphabets and of no
    other. *)
Lemma is_symbol_In (c : byte) :
  is_symbol c = true <-> In c (to_base64_chars false) \/ In c (to_base64_chars true).
Proof.
  rewrite is_symbol_alphabets, orb_true_iff, !existsb_exists.
  split; intros [H|H]; [left|right|left|right].
  - destruct H as (x & Hx & E). apply Byte.byte_dec_bl in E. now subst.
  - destruct H as (x & Hx & E). apply Byte.byte_dec_bl in E. now subst.
  - exists c. split; [assumption|apply byte_eqb_refl].
  - exists c. split; [assumption|apply byte_eqb_refl].
Qed.

Lemma trailing_not_symbol (c : byte) : is_trailing c = true -> is_symbol c = false.
Proof.
  unfold is_trailing. rewrite orb_true_iff.
  intros [H|H]; apply Byte.byte_dec_bl in H; subst; reflexivity.
Qed.

Lemma decode_chunk4_outcome c0 c1 c2 c3 :
  outcome_of_symbols [c0; c1; c2; c3] (decode_chunk4 c0 c1 c2 c3).
Proof.
  unfold outcome_of_symbols, decode_chunk4. rewrite !pos_of_char_symbol. cbn [forallb].
  destruct (is_symbol c0), (is_symbol c1), (is_symbol c2), (is_symbol c3);
    cbn [bind andb]; eauto.
Qed.

Lemma decode_chunk3_outcome c0 c1 c2 :
  outcome_of_symbols [c0; c1; c2] (decode_chunk3 c0 c1 c2).
Proof.
  unfold outcome_of_symbols, decode_chunk3. rewrite !pos_of_char_symbol. cbn [forallb].
  destruct (is_symbol c0), (is_symbol c1), (is_symbol c2); cbn [bind andb]; eauto.
Qed.

Lemma decode_chunk2_outcome c0 c1 :
  outcome_of_symbols [c0; c1] (decode_chunk2 c0 c1).
Proof.
  unfold outcome_of_symbols, decode_chunk2. rewrite !pos_of_char_symbol. cbn [forallb].
  destruct (is_symbol c0), (is_symbol c1); cbn [bind andb]; eauto.
Qed.

Lemma decode_groups_outcome (m : nat) :
  forall s, length s = (4 * S m)%nat -> outcome_of_symbols (examined s) (decode_groups s).
Proof.
  induction m as [|m IH]; intros s Hs.
  - destruct s as [|c0 [|c1 [|c2 [|c3 [|c4 s]]]]]; try discriminate.
    cbn [examined decode_groups]. unfold decode_final.
    destruct (is_trailing c2); [apply decode_chunk2_outcome|].
    destruct (is_trailing c3); [apply decode_chunk3_outcome|apply decode_chunk4_outcome].
  - destruct s as [|c0 [|c1 [|c2 [|c3 rest]]]]; try (simpl in Hs; lia).
    assert (Hr : length rest = (4 * S m)%nat) by (simpl in Hs; lia).
    specialize (IH rest Hr).
    destruct rest as [|c4 rest']; [discriminate|].
    set (rest := c4 :: rest') in *.
    change (examined (c0 :: c1 :: c2 :: c3 :: rest))
      with ([c0; c1; c2; c3] ++ examined rest).
    change (decode_groups (c0 :: c1 :: c2 :: c3 :: rest))
      with (bs <- decode_chunk4 c0 c1 c2 c3 ;; t <- decode_groups rest ;; Returned (bs ++ t)).
    pose proof (decode_chunk4_outcome c0 c1 c2 c3) as H4.
    unfold outcome_of_symbols in *. rewrite forallb_app.
    destruct (forallb is_symbol [c0; c1; c2; c3]).
    + destruct H4 as [bs ->]. cbn [bind andb].
      destruct (forallb is_symbol (examined rest)).
      * destruct IH as [t ->]. cbn [bind]. eauto.
      * rewrite IH. reflexivity.
    + rewrite H4. reflexivity.
Qed.

Lemma forallb_false_exists {A} (f : A -> bool) (l : list A) :
  forallb f l = false <-> exists x, In x l /\ f x = false.
Proof.
  induction l as [|a l IH]; cbn [forallb].
  - split; [discriminate|intros (x & [] & _)].
  - rewrite andb_false_iff, IH. split.
    + intros [H|(x & Hx & Hf)]; [exists a; split; [now left|assumption]|].
      exists x. split; [now right|assumption].
    + intros (x & [->|Hx] & Hf); [now left|right; eauto].
Qed.

(** A string whose length is a positive multiple of four: [decode] throws
    when one of the characters it examines is in neither alphabet, and
    returns otherwise. *)
Lemma decode_examined (K : String_param) (s : list byte) (m : nat) :
  length s = (4 * S m)%nat ->
  Z.of_nat (length s) < 2 ^ 64 ->
  (decode K s false = Thrown <-> exists c, In c (examined s) /\ is_symbol c = false) /\
  (decode K s false = Thrown \/ exists bs, decode K s false = Returned bs).
Proof.
  intros Hs Hlt. rewrite (decode_groups_spec K s m) by assumption.
  pose proof (decode_groups_outcome m s Hs) as H. unfold outcome_of_symbols in H.
  rewrite <- forallb_false_exists.
  destruct (forallb is_symbol (examined s)).
  - destruct H as [bs ->]. split; [split; discriminate|right; eauto].
  - rewrite H. split; [split; reflexivity|now left].
Qed.

Lemma last_group (m : nat) (s : list byte) :
  length s = (4 * S m)%nat ->
  exists body c0 c1 c2 c3, s = body ++ [c0; c1; c2; c3] /\ length body = (4 * m)%nat.
Proof.
  intros Hs. exists (firstn (4 * m) s).
  pose proof (firstn_skipn (4 * m) s) as E.
  pose proof (length_skipn (4 * m) s) as L.
  destruct (skipn (4 * m) s) as [|c0 [|c1 [|c2 [|c3 [|c4 r]]]]]; cbn [length] in L; try lia.
  exists c0, c1, c2, c3. split; [now symmetry|]. rewrite length_firstn. lia.
Qed.

Lemma examined_app (m : nat) :
  forall body c0 c1 c2 c3,
    length body = (4 * m)%nat ->
    examined (body ++ [c0; c1; c2; c3]) = body ++ examined [c0; c1; c2; c3].
Proof.
  induction m as [|m IH]; intros body c0 c1 c2 c3 Hb.
  - destruct body; [reflexivity|discriminate].
  - destruct body as [|d0 [|d1 [|d2 [|d3 body]]]]; try (simpl in Hb; lia).
    cbn [app].
    change (examined (d0 :: d1 :: d2 :: d3 :: body ++ [c0; c1; c2; c3]))
      with (match body ++ [c0; c1; c2; c3] with
            | [] => d0 :: d1 :: (if is_trailing d2 then []
                                 else d2 :: (if is_trailing d3 then [] else [d3]))
            | _ => d0 :: d1 :: d2 :: d3 :: examined (body ++ [c0; c1; c2; c3])
            end).
    destruct (body ++ [c0; c1; c2; c3]) eqn:E.
    + apply app_eq_nil in E. destruct E; discriminate.
    + rewrite <- E, IH by (simpl in Hb; lia). reflexivity.
Qed.

(** With the padding closed, the examined characters are all the
    characters but the trailing ones at the end. *)
Lemma examined_without_padding (m : nat) (s : list byte) :
  length s = (4 * S m)%nat -> padding_closed s -> examined s = without_padding s.
Proof.
  intros Hs Hp.
  destruct (last_group m s Hs) as (body & c0 & c1 & c2 & c3 & -> & Hb).
  rewrite (examined_app m) by assumption.
  unfold without_padding, padding_closed in *.
  rewrite rev_app_distr in *. cbn [rev app] in *.
  cbn [examined].
  destruct (is_trailing c2) eqn:T2.
  - rewrite (Hp eq_refl), rev_involutive, <- app_assoc. reflexivity.
  - destruct (is_trailing c3) eqn:T3; [|reflexivity].
    rewrite rev_involutive, <- !app_assoc. reflexivity.
Qed.

(** * Results *)

(** ** Buffers of fewer than [2 ^ 32] bytes *)

(** X2.  Length law: for a buffer of [n < 2 ^ 32] bytes [base64_encode]
    returns [4 * ceil (n / 3)] characters. *)
Theorem base64_encode_length (fuel : nat) (bs : list byte) (url : bool) :
  Z.of_nat (length bs) < 2 ^ 32 ->
  (length bs / 3 <= fuel)%nat ->
  exists e, base64_encode fuel bs url = Returned e /\
            length e = (4 * ((length bs + 2) / 3))%nat.
Proof.
  intros Hlt Hf. eexists. split; [now apply base64_encode_groups|].
  apply encode_groups_length.
Qed.

Lemma base64_encode_length_witness :
  exists e, base64_encode 2 (chars "Many") false = Returned e /\
            length e = (4 * ((length (chars "Many") + 2) / 3))%nat.
Proof.
  apply (base64_encode_length 2 (chars "Many") false).
  - reflexivity.
  - vm_compute. lia.
Defined.

(** X3.  Padding law, for a buffer of fewer than [2 ^ 32] bytes: no, two or
    one trailing characters for a length that is 0, 1 or 2 modulo 3; the
    trailing character is ['='] or ['.']. *)
Theorem base64_encode_padding (fuel : nat) (bs : list byte) (url : bool) :
  Z.of_nat (length bs) < 2 ^ 32 ->
  (length bs / 3 <= fuel)%nat ->
  exists e, base64_encode fuel bs url = Returned e /\
            trailing_count (if url then ch_dot else ch_equals) e =
            match (length bs mod 3)%nat with
            | 0%nat => 0%nat
            | 1%nat => 2%nat
            | _ => 1%nat
            end.
Proof.
  intros Hlt Hf. eexists. split; [now apply base64_encode_groups|].
  apply (encode_groups_trailing url).
Qed.

Lemma base64_encode_padding_witness :
  exists e, base64_encode 2 (chars "Many") true = Returned e /\
            trailing_count (if true then ch_dot else ch_equals) e =
            match (length (chars "Many") mod 3)%nat with
            | 0%nat => 0%nat
            | 1%nat => 2%nat
            | _ => 1%nat
            end.
Proof.
  apply (base64_encode_padding 2 (chars "Many") true).
  - reflexivity.
  - vm_compute. lia.
Defined.

(** The url-safe encoding holds neither ['+'] nor ['/']. *)
Theorem base64_encode_url_chars (fuel : nat) (bs : list byte) :
  Z.of_nat (length bs) < 2 ^ 32 ->
  (length bs / 3 <= fuel)%nat ->
  exists e, base64_encode fuel bs true = Returned e /\ ~ In x2b e /\ ~ In x2f e.
Proof.
  intros Hlt Hf. eexists. split; [now apply base64_encode_groups|].
  pose proof (encode_groups_chars true bs) as H. rewrite Forall_forall in H.
  split; intros Hin; destruct (H _ Hin) as [(i & Hi & E)|E]; try discriminate;
    pose proof (symbol_row true i Hi) as R; unfold symbol_row_ok in R;
    rewrite Z2Nat.id in R by lia; rewrite <- E in R;
    rewrite !andb_true_iff in R; destruct R as [[[[_ _] _] R1] R2]; discriminate.
Qed.







(** A character outside both alphabets. *)
Example decode_rejects_bangs (K : String_param) :
  decode K (chars "!!!!") false = Thrown.
Proof. destruct K; reflexivity. Qed.

(** X17.  A string of one to three characters: [decode] reads past its
    end.  The read is of the terminating NUL for a [std::string] of three
    characters, where [pos_of_char] then throws; every other case is
    undefined behaviour. *)
Theorem decode_short_input (K : String_param) (s : list byte) :
  (1 <= length s <= 3)%nat ->
  decode K s false =
  match K, length s with
  | const_std_string_ref, 3%nat => Thrown
  | _, _ => Undefined
  end.
Proof.
  intros Hs. unfold decode, decode_fuel.
  destruct s as [|c s']; [cbn [length] in Hs; lia|].
  set (s := c :: s') in *. unfold decode_body. cbv zeta.
  replace (length s) with (S (length s')) at 1 by reflexivity.
  rewrite (decode_loop_short (length s') K s [] Hs).
  destruct K, (length s) as [|[|[|[|n]]]]; reflexivity.
Qed.

Lemma decode_short_input_witness :
  decode std_string_view (chars "TWE") false =
  match std_string_view, length (chars "TWE") with
  | const_std_string_ref, 3%nat => Thrown
  | _, _ => Undefined
  end.
Proof.
  apply (decode_short_input std_string_view (chars "TWE")).
  vm_compute. lia.
Defined.

(** ** The claims *)

Ltac enough_fuel :=
  match goal with
  | |- (?a <= ?b)%nat =>
      let a' := eval vm_compute in a in change (a' <= b)%nat; lia
  end.

(** C1.  Round trip: decoding, with [remove_linebreaks] unset, the encoding
    of a buffer gives the buffer back, for both alphabets.  This holds for
    every buffer of fewer than [2 ^ 32] bytes ([decode_base64_encode]) and
    fails here: for the [2 ^ 32 + 1] bytes of [one_then_zeros_4GiB],
    [base64_encode] returns a text, and [decode] turns that text into
    [one_zeros_one_4GiB], whose last byte is [0x01] and not [0x00]. *)
Theorem roundtrip_lost_at_4GiB_plus_1 (K : String_param) (url : bool) :
  exists e,
    (forall fuel,
        base64_encode (Z.to_nat 1431655765 + fuel) one_then_zeros_4GiB url = Returned e) /\
    decode K e false = Returned one_zeros_one_4GiB /\
    one_zeros_one_4GiB <> one_then_zeros_4GiB.
Proof.
  exists (encode_groups (to_base64_chars url) (trailing_char_of url) one_zeros_one_4GiB).
  split; [|split].
  - intros fuel. apply base64_encode_one_then_zeros.
  - apply decode_of_encode_groups. rewrite one_zeros_one_length. lia.
  - apply one_zeros_one_differs.
Qed.

(** C2.  An input whose length is not a positive multiple of four makes
    [decode] fail with a length error.  The code has no such check:
    ["ABCDEF="], of length 7, is decoded to four bytes; ["AB C="], of length
    5, ends in the exception that [pos_of_char] throws for the space; and
    for ["A"] the first turn of the loop reads past the end of the string. *)
Theorem decode_has_no_length_check :
  (forall K, decode K (chars "ABCDEF=") false = Returned [x00; x10; x83; x10]) /\
  (forall K, decode K (chars "AB C=") false = Thrown) /\
  (forall K, decode K (chars "A") false = Undefined).
Proof. repeat split; intros []; reflexivity. Qed.

(** C3, as stated: [decode] throws if and only if some character of the
    input is neither in one of the alphabets nor a trailing character.  It
    fails for ["TQ==TWFu"]: all its characters are of these kinds, and
    [decode] throws, because [pos_of_char] rejects a trailing character
    that is not at the end. *)
Lemma pad_inside_is_rejected :
  ~ (decode const_std_string_ref (chars "TQ==TWFu") false = Thrown <->
     exists c, In c (chars "TQ==TWFu") /\ is_symbol c = false /\ is_trailing c = false).
Proof.
  intros [H _]. destruct (H eq_refl) as (c & Hin & Hs & Ht).
  cbn in Hin.
  repeat (destruct Hin as [<-|Hin]; [discriminate|]).
  contradiction.
Qed.

(** C3, amended.  For an input whose length is a positive multiple of four
    and whose last group has no trailing character in third place followed
    by another character in fourth place, [decode] with [remove_linebreaks]
    unset throws if and only if some character, the one or two trailing
    characters at the end apart, is in neither alphabet (a trailing
    character is in neither); when it throws it returns no bytes, and when
    it does not throw it returns. *)
Theorem decode_throws_iff (K : String_param) (s : list byte) (m : nat) :
  length s = (4 * S m)%nat ->
  Z.of_nat (length s) < 2 ^ 64 ->
  padding_closed s ->
  (decode K s false = Thrown <->
   exists c, In c (without_padding s) /\ is_symbol c = false) /\
  (decode K s false = Thrown \/ exists bs, decode K s false = Returned bs).
Proof.
  intros Hs Hlt Hp. rewrite <- (examined_without_padding m s Hs Hp).
  now apply (decode_examined K s m).
Qed.

Lemma decode_throws_iff_witness :
  (decode const_std_string_ref (chars "TQ==") false = Thrown <->
   exists c, In c (without_padding (chars "TQ==")) /\ is_symbol c = false) /\
  (decode const_std_string_ref (chars "TQ==") false = Thrown \/
   exists bs, decode const_std_string_ref (chars "TQ==") false = Returned bs).
Proof.
  apply (decode_throws_iff const_std_string_ref (chars "TQ==") 0).
  - reflexivity.
  - reflexivity.
  - intros _. reflexivity.
Defined.

(** C4.  The encoding has [4 * ceil (n / 3)] characters and encoding never
    fails.  This holds for every buffer of fewer than [2 ^ 32] bytes
    ([base64_encode_length]); for the [2 ^ 32 + 2] bytes of [zeros_4GiB_2]
    the loop of [base64_encode] does not end, whatever the fuel. *)
Theorem base64_encode_fails_at_4GiB_plus_2 (fuel : nat) (url : bool) :
  base64_encode fuel zeros_4GiB_2 url = OutOfFuel.
Proof.
  apply base64_encode_never_ends. rewrite zeros_4GiB_2_length. lia.
Qed.

(** C5.  The number of trailing characters of the encoding is given by the
    length modulo 3.  This holds for every buffer of fewer than [2 ^ 32]
    bytes ([base64_encode_padding]); the length of [zeros_4GiB_2] is 0
    modulo 3, and [encode] returns no text for it. *)
Theorem no_encoding_at_4GiB_plus_2 :
  Z.of_nat (length zeros_4GiB_2) mod 3 = 0 /\
  forall fuel url, encode fuel zeros_4GiB_2 url = OutOfFuel.
Proof.
  split.
  - rewrite zeros_4GiB_2_length. reflexivity.
  - intros fuel url. apply base64_encode_never_ends.
    rewrite zeros_4GiB_2_length. lia.
Qed.

(** C6.  [encode_pem] and [encode_mime] return the encoding with a newline
    after every 64 (76) characters, none at the end.  This holds for every
    buffer of fewer than [2 ^ 32] bytes ([encode_pem_spec],
    [encode_mime_spec]); for [zeros_4GiB_2] neither returns. *)
Theorem no_wrapped_encoding_at_4GiB_plus_2 (fuel : nat) :
  encode_pem fuel zeros_4GiB_2 = OutOfFuel /\
  encode_mime fuel zeros_4GiB_2 = OutOfFuel.
Proof.
  unfold encode_pem, encode_mime, encode_with_line_breaks.
  rewrite base64_encode_never_ends by (rewrite zeros_4GiB_2_length; lia).
  split; reflexivity.
Qed.

(** C7.  [decode] with [remove_linebreaks] set gives the buffer back from
    [encode_mime]; with [remove_linebreaks] set, [decode] erases the
    newlines of a copy and decodes the copy with [remove_linebreaks] unset.
    The second part holds for every string
    ([decode_removes_linebreaks_first]), the first for every buffer of fewer
    than [2 ^ 32] bytes ([decode_encode_mime]).  It fails here: for the
    [2 ^ 32 + 1] bytes of [one_then_zeros_4GiB], [encode_mime] returns a
    text, and [decode] turns it into [one_zeros_one_4GiB]. *)
Theorem mime_roundtrip_lost_at_4GiB_plus_1 (K : String_param) (fuel : nat) :
  (out <- encode_mime (Z.to_nat 1431655765 + fuel) one_then_zeros_4GiB ;;
   decode K out true) = Returned one_zeros_one_4GiB /\
  one_zeros_one_4GiB <> one_then_zeros_4GiB.
Proof.
  split; [|apply one_zeros_one_differs].
  rewrite encode_mime_one_then_zeros. cbn [bind].
  apply decode_break_lines; [lia|]. rewrite one_zeros_one_length. lia.
Qed.

(** C8.  The empty input: [base64_encode] returns the empty text for either
    alphabet, and [decode] returns the empty buffer, without error. *)
Theorem empty_input :
  (forall fuel url, base64_encode fuel [] url = Returned []) /\
  (forall K remove_linebreaks, decode K [] remove_linebreaks = Returned []).
Proof.
  split.
  - intros fuel url. destruct fuel; reflexivity.
  - intros K r. reflexivity.
Qed.

(** C9.  The test vectors: ["Man"], ["Ma"] and ["M"] are encoded as
    ["TWFu"], ["TWE="] and ["TQ=="]; ["TWFu"] is decoded as ["Man"]; the
    bytes [0xFB 0xEF 0xBE], four times the symbol 62, are encoded as
    ["----"] with the url-safe alphabet (["++++"] with the standard one),
    and the url-safe alphabet has ['-'] and ['_'] for the symbols 62 and
    63. *)
Theorem test_vectors (fuel : nat) (K : String_param) :
  base64_encode (S fuel) (chars "Man") false = Returned (chars "TWFu") /\
  base64_encode (S fuel) (chars "Ma") false = Returned (chars "TWE=") /\
  base64_encode (S fuel) (chars "M") false = Returned (chars "TQ==") /\
  decode K (chars "TWFu") false = Returned (chars "Man") /\
  base64_encode (S fuel) [xfb; xef; xbe] true = Returned (chars "----") /\
  base64_encode (S fuel) [xfb; xef; xbe] false = Returned (chars "++++") /\
  base64_encode (S fuel) [xfb; xef; xbf] true = Returned (chars "---_") /\
  tab_at (to_base64_chars true) 62 = x2d /\
  tab_at (to_base64_chars true) 63 = x5f.
Proof.
  repeat split;
    try (rewrite base64_encode_groups by (reflexivity || enough_fuel);
         reflexivity).
Qed.

(** C10.  [decode] does not look at the low bits of the last symbol before
    the trailing characters: ["TQ=="] and ["TR=="] both give ["M"], ["TWE="]
    and ["TWF="] both give ["Ma"], so [decode] is not injective on the
    strings it accepts. *)
Theorem decode_not_injective (K : String_param) :
  decode K (chars "TQ==") false = Returned (chars "M") /\
  decode K (chars "TR==") false = Returned (chars "M") /\
  decode K (chars "TWE=") false = Returned (chars "Ma") /\
  decode K (chars "TWF=") false = Returned (chars "Ma") /\
  exists s1 s2 bs,
    s1 <> s2 /\ decode K s1 false = Returned bs /\ decode K s2 false = Returned bs.
Proof.
  repeat split; try (destruct K; reflexivity).
  exists (chars "TQ=="), (chars "TR=="), (chars "M").
  repeat split; try (destruct K; reflexivity). discriminate.
Qed.

(** * Further properties *)

(** ** Groups of the decoder *)

Lemma decode_full_length (k : nat) :
  forall s bs, length s = (4 * k)%nat -> decode_full s = Returned bs ->
               length bs = (3 * k)%nat.
Proof.
  induction k as [|k IH]; intros s bs Hs H.
  - destruct s; [|discriminate]. injection H as <-. reflexivity.
  - destruct s as [|c0 [|c1 [|c2 [|c3 rest]]]]; try (simpl in Hs; lia).
    cbn [decode_full] in H.
    pose proof (decode_chunk4_outcome c0 c1 c2 c3) as O.
    unfold outcome_of_symbols in O.
    destruct (forallb is_symbol [c0; c1; c2; c3]);
      [destruct O as [b4 E4]|rewrite O in H; discriminate].
    assert (L4 : length b4 = 3%nat).
    { unfold decode_chunk4 in E4. rewrite !pos_of_char_symbol in E4.
      destruct (is_symbol c0), (is_symbol c1), (is_symbol c2), (is_symbol c3);
        cbn [bind] in E4; try discriminate.
      injection E4 as <-. reflexivity. }
    rewrite E4 in H. cbn [bind] in H.
    destruct (decode_full rest) as [t| | |] eqn:Et; try discriminate.
    cbn [bind] in H. injection H as <-.
    rewrite length_app, L4, (IH rest t) by (assumption || (simpl in Hs; lia)).
    lia.
Qed.

(** [decode_groups] on a string cut after whole groups. *)
Lemma decode_groups_app (k : nat) :
  forall s1 s2,
    length s1 = (4 * k)%nat -> s2 <> [] ->
    decode_groups (s1 ++ s2) =
    (b1 <- decode_full s1 ;; b2 <- decode_groups s2 ;; Returned (b1 ++ b2)).
Proof.
  induction k as [|k IH]; intros s1 s2 Hs Hne.
  - destruct s1; [|discriminate]. cbn [app decode_full bind].
    destruct (decode_groups s2); reflexivity.
  - destruct s1 as [|c0 [|c1 [|c2 [|c3 rest]]]]; try (simpl in Hs; lia).
    cbn [app decode_full].
    rewrite decode_groups_more
      by (intros E; apply app_eq_nil in E; destruct E; contradiction).
    rewrite IH by (assumption || (simpl in Hs; lia)).
    destruct (decode_chunk4 c0 c1 c2 c3); try reflexivity. cbn [bind].
    destruct (decode_full rest); try reflexivity. cbn [bind].
    destruct (decode_groups s2); try reflexivity. cbn [bind].
    now rewrite app_assoc.
Qed.

Lemma decode_app_last (K : String_param) (k : nat) (body : list byte) (c0 c1 c2 c3 : byte) :
  length body = (4 * k)%nat ->
  Z.of_nat (length body) + 4 < 2 ^ 64 ->
  decode K (body ++ [c0; c1; c2; c3]) false =
  (b1 <- decode_full body ;; b2 <- decode_final c0 c1 c2 c3 ;; Returned (b1 ++ b2)).
Proof.
  intros Hb Hlt.
  rewrite (decode_groups_spec K _ k)
    by (rewrite length_app; cbn [length]; lia).
  rewrite (decode_groups_app k) by (assumption || discriminate).
  reflexivity.
Qed.

Lemma decode_full_cases (s : list byte) :
  (exists b, decode_full s = Returned b) \/ decode_full s = Thrown.
Proof.
  assert (H : forall n s, (length s <= n)%nat ->
                          (exists b, decode_full s = Returned b) \/ decode_full s = Thrown).
  { clear s. induction n as [|n IH]; intros s Hs.
    - destruct s; [left; eexists; reflexivity|simpl in Hs; lia].
    - destruct s as [|c0 [|c1 [|c2 [|c3 rest]]]]; try (left; eexists; reflexivity).
      cbn [decode_full].
      destruct (decode_chunk4_cases c0 c1 c2 c3) as [[b4 ->]| ->]; [|now right].
      cbn [bind].
      destruct (IH rest) as [[t ->]| ->]; [simpl in Hs; lia| |now right].
      left. eexists. reflexivity. }
  apply (H (length s)). lia.
Qed.

Lemma decode_full_app (k : nat) :
  forall s1 s2,
    length s1 = (4 * k)%nat ->
    decode_full (s1 ++ s2) =
    (b1 <- decode_full s1 ;; b2 <- decode_full s2 ;; Returned (b1 ++ b2)).
Proof.
  induction k as [|k IH]; intros s1 s2 Hs.
  - destruct s1; [|discriminate]. cbn [app decode_full bind].
    destruct (decode_full s2); reflexivity.
  - destruct s1 as [|c0 [|c1 [|c2 [|c3 rest]]]]; try (simpl in Hs; lia).
    cbn [app decode_full]. rewrite IH by (simpl in Hs; lia).
    destruct (decode_chunk4 c0 c1 c2 c3); try reflexivity. cbn [bind].
    destruct (decode_full rest); try reflexivity. cbn [bind].
    destruct (decode_full s2); try reflexivity. cbn [bind].
    now rewrite app_assoc.
Qed.

Lemma decode_full_last (k : nat) (body : list byte) (c0 c1 c2 c3 : byte) :
  length body = (4 * k)%nat ->
  decode_full (body ++ [c0; c1; c2; c3]) =
  (b1 <- decode_full body ;; b2 <- decode_chunk4 c0 c1 c2 c3 ;; Returned (b1 ++ b2)).
Proof.
  intros Hb. rewrite (decode_full_app k) by assumption.
  destruct (decode_full body); try reflexivity. cbn [bind decode_full].
  destruct (decode_chunk4 c0 c1 c2 c3); try reflexivity. cbn [bind].
  now rewrite app_nil_r.
Qed.

Lemma decode_chunk4_trailing (c0 c1 c2 c3 : byte) :
  is_trailing c2 = true \/ is_trailing c3 = true ->
  decode_chunk4 c0 c1 c2 c3 = Thrown.
Proof.
  intros H. pose proof (decode_chunk4_outcome c0 c1 c2 c3) as O.
  unfold outcome_of_symbols in O.
  replace (forallb is_symbol [c0; c1; c2; c3]) with false in O; [assumption|].
  symmetry. cbn [forallb].
  destruct H as [H|H]; apply trailing_not_symbol in H; rewrite H;
    rewrite ?andb_false_r; reflexivity.
Qed.

(** ** The decoder on its last group and on texts put end to end *)

(** X18.  When the third character of the last group is a trailing
    character, [decode] never looks at the fourth: any two strings that
    differ only there have the same outcome. *)
Theorem decode_ignores_after_trailing (K : String_param) (k : nat) (body : list byte)
    (c0 c1 c2 c3 c3' : byte) :
  length body = (4 * k)%nat ->
  Z.of_nat (length body) + 4 < 2 ^ 64 ->
  is_trailing c2 = true ->
  decode K (body ++ [c0; c1; c2; c3]) false =
  decode K (body ++ [c0; c1; c2; c3']) false.
Proof.
  intros Hb Hlt H2. rewrite !(decode_app_last K k) by assumption.
  unfold decode_final. now rewrite H2.
Qed.

Lemma decode_ignores_after_trailing_witness :
  decode const_std_string_ref (chars "TWFu" ++ [x54; x51; x3d; x21]) false =
  decode const_std_string_ref (chars "TWFu" ++ [x54; x51; x3d; x3d]) false.
Proof.
  apply (decode_ignores_after_trailing const_std_string_ref 1 (chars "TWFu")).
  - reflexivity.
  - reflexivity.
  - reflexivity.
Defined.

(** X19.  The bytes that [decode] returns for a string of [4 * (k + 1)]
    characters: three for each group, less two when the third character of
    the last group is a trailing character, less one when only the fourth
    is.  They never exceed the [in_len / 4 * 3] bytes that [decode]
    reserves. *)
Theorem decode_length (K : String_param) (k : nat) (body : list byte)
    (c0 c1 c2 c3 : byte) (bs : list byte) :
  length body = (4 * k)%nat ->
  Z.of_nat (length body) + 4 < 2 ^ 64 ->
  decode K (body ++ [c0; c1; c2; c3]) false = Returned bs ->
  length bs =
    (3 * k + (if is_trailing c2 then 1 else if is_trailing c3 then 2 else 3))%nat /\
  (length bs <= length (body ++ [c0; c1; c2; c3]) / 4 * 3)%nat.
Proof.
  intros Hb Hlt H. rewrite (decode_app_last K k) in H by assumption.
  destruct (decode_full body) as [b1| | |] eqn:E1; try discriminate.
  cbn [bind] in H.
  destruct (decode_final c0 c1 c2 c3) as [b2| | |] eqn:E2; try discriminate.
  cbn [bind] in H. injection H as <-.
  pose proof (decode_full_length k body b1 Hb E1) as L1.
  assert (L2 : length b2 =
               if is_trailing c2 then 1%nat else if is_trailing c3 then 2%nat else 3%nat).
  { unfold decode_final, decode_chunk2, decode_chunk3, decode_chunk4 in E2.
    rewrite !pos_of_char_symbol in E2.
    destruct (is_trailing c2), (is_trailing c3),
      (is_symbol c0), (is_symbol c1), (is_symbol c2), (is_symbol c3);
      cbn [bind] in E2; try discriminate; injection E2 as <-; reflexivity. }
  rewrite !length_app, L1, L2, Hb. cbn [length].
  replace (4 * k + 4)%nat with ((k + 1) * 4)%nat by lia.
  rewrite Nat.div_mul by lia.
  split; [reflexivity|].
  destruct (is_trailing c2), (is_trailing c3); lia.
Qed.

Lemma decode_length_witness :
  length (chars "Ma") = (3 * 0 + (if is_trailing x45 then 1 else if is_trailing x3d then 2 else 3))%nat /\
  (length (chars "Ma") <= length ([] ++ [x54; x57; x45; x3d]) / 4 * 3)%nat.
Proof.
  apply (decode_length const_std_string_ref 0 [] x54 x57 x45 x3d (chars "Ma")).
  - reflexivity.
  - reflexivity.
  - reflexivity.
Defined.

(** X21.  Two texts put end to end, the first one without trailing
    characters: [decode] gives the bytes of the first followed by the bytes
    of the second, and throws when it throws for one of them. *)
Theorem decode_app (K : String_param) (k m : nat) (body : list byte)
    (c0 c1 c2 c3 : byte) (s2 : list byte) :
  length body = (4 * k)%nat ->
  length s2 = (4 * S m)%nat ->
  Z.of_nat (length body + 4 + length s2) < 2 ^ 64 ->
  is_trailing c2 = false ->
  is_trailing c3 = false ->
  decode K ((body ++ [c0; c1; c2; c3]) ++ s2) false =
  (b1 <- decode K (body ++ [c0; c1; c2; c3]) false ;;
   b2 <- decode K s2 false ;;
   Returned (b1 ++ b2)).
Proof.
  intros Hb Hs2 Hlt H2 H3.
  assert (H1 : length (body ++ [c0; c1; c2; c3]) = (4 * S k)%nat)
    by (rewrite length_app; cbn [length]; lia).
  rewrite (decode_groups_spec K _ (S k + m))
    by (rewrite length_app; lia).
  rewrite (decode_groups_app (S k)) by (assumption || (intros ->; discriminate)).
  rewrite (decode_full_last k) by assumption.
  rewrite (decode_app_last K k) by (assumption || lia).
  rewrite (decode_groups_spec K s2 m) by (assumption || lia).
  unfold decode_final. rewrite H2, H3. reflexivity.
Qed.

Lemma decode_app_witness :
  decode const_std_string_ref (([] ++ [x54; x57; x46; x75]) ++ chars "TQ==") false =
  (b1 <- decode const_std_string_ref ([] ++ [x54; x57; x46; x75]) false ;;
   b2 <- decode const_std_string_ref (chars "TQ==") false ;;
   Returned (b1 ++ b2)).
Proof.
  apply (decode_app const_std_string_ref 0 0 [] x54 x57 x46 x75 (chars "TQ==")).
  - reflexivity.
  - reflexivity.
  - reflexivity.
  - reflexivity.
  - reflexivity.
Defined.

(** X22.  Two texts put end to end, the first one ending in a trailing
    character: [decode] throws, since a trailing character is accepted in
    the last group only. *)
Theorem decode_rejects_inner_padding (K : String_param) (k m : nat) (body : list byte)
    (c0 c1 c2 c3 : byte) (s2 : list byte) :
  length body = (4 * k)%nat ->
  length s2 = (4 * S m)%nat ->
  Z.of_nat (length body + 4 + length s2) < 2 ^ 64 ->
  is_trailing c2 = true \/ is_trailing c3 = true ->
  decode K ((body ++ [c0; c1; c2; c3]) ++ s2) false = Thrown.
Proof.
  intros Hb Hs2 Hlt Ht.
  assert (H1 : length (body ++ [c0; c1; c2; c3]) = (4 * S k)%nat)
    by (rewrite length_app; cbn [length]; lia).
  rewrite (decode_groups_spec K _ (S k + m))
    by (rewrite length_app; lia).
  rewrite (decode_groups_app (S k)) by (assumption || (intros ->; discriminate)).
  rewrite (decode_full_last k) by assumption.
  rewrite (decode_chunk4_trailing c0 c1 c2 c3 Ht).
  destruct (decode_full_cases body) as [[b ->]| ->]; reflexivity.
Qed.

Lemma decode_rejects_inner_padding_witness :
  decode const_std_string_ref (([] ++ [x54; x57; x45; x3d]) ++ chars "TWFu") false = Thrown.
Proof.
  apply (decode_rejects_inner_padding const_std_string_ref 0 0 [] x54 x57 x45 x3d (chars "TWFu")).
  - reflexivity.
  - reflexivity.
  - reflexivity.
  - right. reflexivity.
Defined.

(** ** Characters that the decoder does not tell apart *)

Section SameToDecode.
Variable f : byte -> byte.
Hypothesis f_from : forall c, from_at (f c) = from_at c.
Hypothesis f_trailing : forall c, is_trailing (f c) = is_trailing c.
Hypothesis f_newline : forall c, Byte.eqb (f c) ch_newline = Byte.eqb c ch_newline.
Hypothesis f_nul : f ch_nul = ch_nul.

Lemma str_at_map K (s : list byte) (i : Z) :
  str_at K (map f s) i = (c <- str_at K s i ;; Returned (f c)).
Proof.
  unfold str_at. rewrite nth_error_map, length_map.
  destruct (nth_error s (Z.to_nat i)); [reflexivity|].
  destruct K; [|reflexivity].
  destruct (i =? Z.of_nat (length s)); [|reflexivity].
  cbn [bind]. now rewrite f_nul.
Qed.

Lemma pos_of_char_map (c : byte) : pos_of_char (f c) = pos_of_char c.
Proof. unfold pos_of_char. now rewrite f_from. Qed.

Lemma decode_chunk4_map c0 c1 c2 c3 :
  decode_chunk4 (f c0) (f c1) (f c2) (f c3) = decode_chunk4 c0 c1 c2 c3.
Proof. unfold decode_chunk4. now rewrite !pos_of_char_map. Qed.

Lemma decode_chunk3_map c0 c1 c2 :
  decode_chunk3 (f c0) (f c1) (f c2) = decode_chunk3 c0 c1 c2.
Proof. unfold decode_chunk3. now rewrite !pos_of_char_map. Qed.

Lemma decode_chunk2_map c0 c1 : decode_chunk2 (f c0) (f c1) = decode_chunk2 c0 c1.
Proof. unfold decode_chunk2. now rewrite !pos_of_char_map. Qed.

Lemma decode_loop_map (fuel : nat) K (s : list byte) (len : Z) :
  forall pos ret,
    decode_loop fuel K (map f s) len pos ret = decode_loop fuel K s len pos ret.
Proof.
  induction fuel as [|fuel IH]; intros pos ret; [reflexivity|].
  cbn [decode_loop]. destruct (pos <? len); [|reflexivity].
  rewrite !str_at_map.
  destruct (str_at K s (wrap_size (pos + 0))); try reflexivity. cbn [bind].
  destruct (str_at K s (wrap_size (pos + 1))); try reflexivity. cbn [bind].
  destruct (str_at K s (wrap_size (pos + 2))); try reflexivity. cbn [bind].
  destruct (str_at K s (wrap_size (pos + 3))); try reflexivity. cbn [bind].
  rewrite decode_chunk4_map.
  destruct (decode_chunk4 a a0 a1 a2); try reflexivity. cbn [bind].
  apply IH.
Qed.

Lemma decode_last_map K (s : list byte) (pos : Z) (ret : list byte) :
  decode_last K (map f s) pos ret = decode_last K s pos ret.
Proof.
  unfold decode_last. rewrite !str_at_map.
  destruct (str_at K s (wrap_size (pos + 2))) as [c2| | |]; try reflexivity.
  cbn [bind]. rewrite f_trailing.
  destruct (is_trailing c2).
  - destruct (str_at K s (wrap_size (pos + 0))); try reflexivity. cbn [bind].
    destruct (str_at K s (wrap_size (pos + 1))); try reflexivity. cbn [bind].
    now rewrite decode_chunk2_map.
  - destruct (str_at K s (wrap_size (pos + 3))) as [c3| | |]; try reflexivity.
    cbn [bind]. rewrite f_trailing.
    destruct (is_trailing c3);
      (destruct (str_at K s (wrap_size (pos + 0))); try reflexivity; cbn [bind];
       destruct (str_at K s (wrap_size (pos + 1))); try reflexivity; cbn [bind]).
    + now rewrite decode_chunk3_map.
    + now rewrite decode_chunk4_map.
Qed.

Lemma decode_body_map (fuel : nat) K (s : list byte) :
  decode_body fuel K (map f s) = decode_body fuel K s.
Proof.
  unfold decode_body. cbv zeta. rewrite length_map, decode_loop_map.
  destruct (decode_loop fuel K s _ 0 []) as [[pos ret]| | |]; try reflexivity.
  cbn [bind]. apply decode_last_map.
Qed.

Lemma erase_newlines_map (s : list byte) :
  erase_newlines (map f s) = map f (erase_newlines s).
Proof.
  induction s as [|c s IH]; [reflexivity|].
  cbn [map erase_newlines filter]. rewrite f_newline.
  destruct (negb (Byte.eqb c ch_newline)); cbn [map]; unfold erase_newlines in IH;
    now rewrite IH.
Qed.

Lemma decode_map K (s : list byte) (remove_linebreaks : bool) :
  decode K (map f s) remove_linebreaks = decode K s remove_linebreaks.
Proof.
  unfold decode, decode_fuel. rewrite length_map.
  destruct s as [|c s']; [reflexivity|].
  change (map f (c :: s')) with (f c :: map f s') at 1.
  cbv iota. destruct remove_linebreaks.
  - change (f c :: map f s') with (map f (c :: s')).
    rewrite erase_newlines_map.
    destruct (erase_newlines (c :: s')) as [|c' copy]; [reflexivity|].
    change (map f (c' :: copy)) with (f c' :: map f copy) at 1. cbv iota.
    change (f c' :: map f copy) with (map f (c' :: copy)).
    apply decode_body_map.
  - change (f c :: map f s') with (map f (c :: s')).
    apply decode_body_map.
Qed.
End SameToDecode.

Lemma to_standard_from (c : byte) : from_at (to_standard c) = from_at c.
Proof. destruct c; reflexivity. Qed.

Lemma to_standard_trailing (c : byte) : is_trailing (to_standard c) = is_trailing c.
Proof. destruct c; reflexivity. Qed.

Lemma to_standard_newline (c : byte) :
  Byte.eqb (to_standard c) ch_newline = Byte.eqb c ch_newline.
Proof. destruct c; reflexivity. Qed.

(** X20.  [decode] does not tell the two alphabets apart, nor the two
    trailing characters: writing ['+'] for ['-'], ['/'] for ['_'] and ['=']
    for ['.'] anywhere in a string changes nothing of what [decode] does
    with it, for every string and both values of [remove_linebreaks]. *)
Theorem decode_any_variant (K : String_param) (s : list byte) (remove_linebreaks : bool) :
  decode K (map to_standard s) remove_linebreaks = decode K s remove_linebreaks.
Proof.
  apply decode_map.
  - apply to_standard_from.
  - apply to_standard_trailing.
  - apply to_standard_newline.
  - reflexivity.
Qed.

(** ** [std::string] and [std::string_view] *)

Lemma str_at_view (s : list byte) (i : Z) :
  str_at std_string_view s i = Undefined \/
  str_at const_std_string_ref s i = str_at std_string_view s i.
Proof.
  unfold str_at. destruct (nth_error s (Z.to_nat i)); [now right|now left].
Qed.

Ltac view_read s i :=
  destruct (str_at_view s i) as [-> | ->]; [now left|];
  destruct (str_at std_string_view s i); try (now right); cbn [bind].

Lemma decode_loop_view (fuel : nat) (s : list byte) (len : Z) :
  forall pos ret,
    decode_loop fuel std_string_view s len pos ret = Undefined \/
    decode_loop fuel const_std_string_ref s len pos ret =
    decode_loop fuel std_string_view s len pos ret.
Proof.
  induction fuel as [|fuel IH]; intros pos ret; [now right|].
  cbn [decode_loop]. destruct (pos <? len); [|now right].
  view_read s (wrap_size (pos + 0)). view_read s (wrap_size (pos + 1)).
  view_read s (wrap_size (pos + 2)). view_read s (wrap_size (pos + 3)).
  destruct (decode_chunk4 a a0 a1 a2); try (now right). cbn [bind].
  apply IH.
Qed.

Lemma decode_last_view (s : list byte) (pos : Z) (ret : list byte) :
  decode_last std_string_view s pos ret = Undefined \/
  decode_last const_std_string_ref s pos ret = decode_last std_string_view s pos ret.
Proof.
  unfold decode_last.
  view_read s (wrap_size (pos + 2)).
  destruct (is_trailing a).
  - view_read s (wrap_size (pos + 0)).
    destruct (str_at_view s (wrap_size (pos + 1))) as [-> | ->]; [now left|now right].
  - view_read s (wrap_size (pos + 3)).
    destruct (is_trailing a0);
      view_read s (wrap_size (pos + 0));
      (destruct (str_at_view s (wrap_size (pos + 1))) as [-> | ->]; [now left|now right]).
Qed.

Lemma decode_body_view (fuel : nat) (s : list byte) :
  decode_body fuel std_string_view s = Undefined \/
  decode_body fuel const_std_string_ref s = decode_body fuel std_string_view s.
Proof.
  unfold decode_body. cbv zeta.
  destruct (decode_loop_view fuel s (wrap_size (Z.of_nat (length s) - 4)) 0 [])
    as [-> | ->]; [now left|].
  destruct (decode_loop fuel std_string_view s _ 0 []) as [[pos ret]| | |];
    try (now right).
  cbn [bind]. apply decode_last_view.
Qed.

(** X16.  The two instantiations of [decode] agree wherever the
    [std::string_view] one has defined behaviour: either it reads outside
    the view, or the [std::string] one has the same outcome. *)
Theorem decode_string_as_view (s : list byte) (remove_linebreaks : bool) :
  decode std_string_view s remove_linebreaks = Undefined \/
  decode const_std_string_ref s remove_linebreaks =
  decode std_string_view s remove_linebreaks.
Proof.
  unfold decode, decode_fuel.
  destruct s as [|c s']; [now right|].
  destruct remove_linebreaks; [now right|].
  apply decode_body_view.
Qed.

(** ** Turns of the decoder's loop, and newlines *)

(** X14.  The loop of [decode] ends for every string, also when
    [in_len - 4] wraps around: one turn for each started group of four
    characters is enough, and more turns change nothing. *)
Theorem decode_ends_within (fuel : nat) (K : String_param) (s : list byte)
    (remove_linebreaks : bool) :
  Z.of_nat (length s) < 2 ^ 64 ->
  ((length s + 3) / 4 <= fuel)%nat ->
  decode_fuel fuel K s remove_linebreaks <> OutOfFuel /\
  decode_fuel fuel K s remove_linebreaks = decode K s remove_linebreaks.
Proof.
  intros Hlt Hf.
  assert (Up : forall t : list byte, (length t <= 4 * ((length t + 3) / 4))%nat).
  { intros t. pose proof (Nat.div_mod_eq (length t + 3) 4) as E.
    pose proof (Nat.mod_upper_bound (length t + 3) 4 ltac:(lia)) as U. lia. }
  assert (Mono : forall t u : list byte, (length t <= length u)%nat ->
                   ((length t + 3) / 4 <= (length u + 3) / 4)%nat).
  { intros t u H. apply Nat.Div0.div_le_mono. lia. }
  assert (Le : ((length s + 3) / 4 <= length s)%nat).
  { destruct s as [|c s']; [reflexivity|].
    apply Nat.Div0.div_le_upper_bound. cbn [length]. lia. }
  assert (Body : forall K' (t : list byte),
             t <> [] -> (length t <= length s)%nat ->
             decode_body fuel K' t <> OutOfFuel /\
             decode_body fuel K' t = decode_body (length s) K' t).
  { intros K' t Hne Ht.
    assert (E0 : decode_body ((length t + 3) / 4) K' t <> OutOfFuel).
    { apply decode_body_ends; [assumption|lia|apply Up]. }
    specialize (Mono t s Ht).
    rewrite (decode_body_more_fuel ((length t + 3) / 4) fuel) by (lia || assumption).
    rewrite (decode_body_more_fuel ((length t + 3) / 4) (length s)) by (lia || assumption).
    split; [assumption|reflexivity]. }
  unfold decode, decode_fuel.
  destruct s as [|c s']; [split; [discriminate|reflexivity]|].
  set (s := c :: s') in *.
  destruct remove_linebreaks.
  - pose proof (erase_newlines_length s) as Hl.
    destruct (erase_newlines s) as [|c' copy] eqn:E; [split; [discriminate|reflexivity]|].
    apply Body; [discriminate|assumption].
  - apply Body; [discriminate|lia].
Qed.

Lemma decode_ends_within_witness :
  decode_fuel 2 const_std_string_ref (chars "TWFuTQ==") false <> OutOfFuel /\
  decode_fuel 2 const_std_string_ref (chars "TWFuTQ==") false =
  decode const_std_string_ref (chars "TWFuTQ==") false.
Proof.
  apply (decode_ends_within 2 const_std_string_ref (chars "TWFuTQ==") false).
  - reflexivity.
  - vm_compute. lia.
Defined.

Lemma erase_newlines_insert (s1 s2 : list byte) :
  erase_newlines (s1 ++ ch_newline :: s2) = erase_newlines (s1 ++ s2).
Proof. now rewrite !erase_newlines_app. Qed.

(** X15.  With [remove_linebreaks] set, a newline put anywhere in a string
    changes nothing of what [decode] does with it. *)
Theorem decode_ignores_newline (K : String_param) (s1 s2 : list byte) :
  Z.of_nat (length (s1 ++ ch_newline :: s2)) < 2 ^ 64 ->
  decode K (s1 ++ ch_newline :: s2) true = decode K (s1 ++ s2) true.
Proof.
  intros Hlt.
  assert (Hlt' : Z.of_nat (length (s1 ++ s2)) < 2 ^ 64).
  { rewrite length_app in *. cbn [length] in Hlt. lia. }
  rewrite !decode_removes_linebreaks_first by assumption.
  now rewrite erase_newlines_insert.
Qed.

Lemma decode_ignores_newline_witness :
  decode std_string_view (chars "TW" ++ ch_newline :: chars "Fu") true =
  decode std_string_view (chars "TW" ++ chars "Fu") true.
Proof.
  apply (decode_ignores_newline std_string_view (chars "TW") (chars "Fu")).
  reflexivity.
Defined.

(** ** The encoder: where it returns, and how its texts compose *)

(** A buffer of exactly [2 ^ 32] bytes: the loop ends at [pos = 2 ^ 32 - 1]
    and [case 1] reads the last byte at that index. *)
Lemma base64_encode_at_4GiB (fuel : nat) (body : list byte) (p0 : byte) (url : bool) :
  Z.of_nat (length body) = 2 ^ 32 - 1 ->
  (Z.to_nat 1431655765 <= fuel)%nat ->
  base64_encode fuel (body ++ [p0]) url =
  Returned (encode_groups (to_base64_chars url) (trailing_char_of url) (body ++ [p0])).
Proof.
  intros Hlen Hf. unfold base64_encode. cbv zeta.
  assert (Hin : Z.of_nat (length (body ++ [p0])) = 2 ^ 32).
  { rewrite length_app. cbn [length]. lia. }
  rewrite Hin.
  change (2 ^ 32 mod 3) with 1. change (2 ^ 32 - 1) with 4294967295.
  pose proof (encode_loop_groups (to_base64_chars url) (trailing_char_of url)
                (Z.to_nat 1431655765) body [] [p0] fuel [] 0 4294967295) as L.
  cbn [app] in L. rewrite L; [|lia|reflexivity|lia|lia|assumption]. clear L.
  cbn [bind]. change (1 =? 2) with false. change (1 =? 1) with true. cbv iota.
  replace (4294967295 + 0) with (Z.of_nat (length body) + 0) by lia.
  rewrite (buf_at_offset body _ 0 p0) by (reflexivity || lia).
  cbn [bind].
  rewrite (encode_groups_app _ _ (Z.to_nat 1431655765)) by lia.
  reflexivity.
Qed.

Lemma cut_at {A} (n : nat) (l : list A) :
  (n <= length l)%nat ->
  exists l1 l2, l = l1 ++ l2 /\ length l1 = n /\ length l2 = (length l - n)%nat.
Proof.
  intros H. exists (firstn n l), (skipn n l). repeat split.
  - symmetry. apply firstn_skipn.
  - rewrite length_firstn. lia.
  - apply length_skipn.
Qed.

(** X5.  [base64_encode] returns, given enough turns of its loop, exactly
    for the buffers of at most [2 ^ 32 + 1] bytes. *)
Theorem base64_encode_returns_iff (bs : list byte) (url : bool) :
  (exists fuel e, base64_encode fuel bs url = Returned e) <->
  Z.of_nat (length bs) <= 2 ^ 32 + 1.
Proof.
  split.
  - intros (fuel & e & H).
    destruct (Z_le_gt_dec (Z.of_nat (length bs)) (2 ^ 32 + 1)) as [Hle|Hgt];
      [assumption|].
    rewrite base64_encode_never_ends in H by lia. discriminate.
  - intros Hle.
    destruct (Z_lt_ge_dec (Z.of_nat (length bs)) (2 ^ 32)) as [Hsmall|Hbig].
    + exists (length bs). eexists. apply base64_encode_groups; [assumption|].
      apply Nat.Div0.div_le_upper_bound. lia.
    + exists (Z.to_nat 1431655765).
      destruct (cut_at (Z.to_nat (2 ^ 32 - 1)) bs ltac:(lia)) as (l1 & l2 & E & H1 & H2).
      subst bs. rewrite length_app in Hle, Hbig.
      destruct l2 as [|p0 [|p1 [|p2 l2]]]; cbn [length] in *; try lia.
      * eexists. apply base64_encode_at_4GiB; lia.
      * destruct l1 as [|b l1]; [cbn [length] in H1; lia|].
        eexists. apply base64_encode_wraps_last_read; [|lia].
        cbn [length] in *. lia.
Qed.

(** X6.  A buffer cut after a multiple of three bytes: the text of the
    whole is the text of the first part followed by the text of the second
    (for a buffer of fewer than [2 ^ 32] bytes). *)
Theorem base64_encode_app (fuel : nat) (bs1 bs2 : list byte) (url : bool) :
  Z.of_nat (length (bs1 ++ bs2)) < 2 ^ 32 ->
  (length (bs1 ++ bs2) / 3 <= fuel)%nat ->
  (length bs1 mod 3 = 0)%nat ->
  base64_encode fuel (bs1 ++ bs2) url =
  (e1 <- base64_encode fuel bs1 url ;;
   e2 <- base64_encode fuel bs2 url ;;
   Returned (e1 ++ e2)).
Proof.
  intros Hlt Hf H3. rewrite length_app in Hlt, Hf.
  assert (F1 : (length bs1 / 3 <= fuel)%nat).
  { etransitivity; [|exact Hf]. apply Nat.Div0.div_le_mono. lia. }
  assert (F2 : (length bs2 / 3 <= fuel)%nat).
  { etransitivity; [|exact Hf]. apply Nat.Div0.div_le_mono. lia. }
  rewrite !base64_encode_groups by (rewrite ?length_app; lia).
  cbn [bind]. f_equal.
  apply (encode_groups_app _ _ (length bs1 / 3)).
  pose proof (Nat.div_mod_eq (length bs1) 3). lia.
Qed.

Lemma base64_encode_app_witness :
  base64_encode 2 (chars "Man" ++ chars "Ma") true =
  (e1 <- base64_encode 2 (chars "Man") true ;;
   e2 <- base64_encode 2 (chars "Ma") true ;;
   Returned (e1 ++ e2)).
Proof.
  apply (base64_encode_app 2 (chars "Man") (chars "Ma") true).
  - reflexivity.
  - vm_compute. lia.
  - reflexivity.
Defined.

(** X7.  Two buffers of fewer than [2 ^ 32] bytes with the same text are
    the same buffer. *)
Theorem base64_encode_injective (fuel1 fuel2 : nat) (bs1 bs2 e : list byte) (url : bool) :
  Z.of_nat (length bs1) < 2 ^ 32 -> (length bs1 / 3 <= fuel1)%nat ->
  Z.of_nat (length bs2) < 2 ^ 32 -> (length bs2 / 3 <= fuel2)%nat ->
  base64_encode fuel1 bs1 url = Returned e ->
  base64_encode fuel2 bs2 url = Returned e ->
  bs1 = bs2.
Proof.
  intros L1 F1 L2 F2 E1 E2.
  rewrite base64_encode_groups in E1, E2 by assumption.
  injection E1 as E1. injection E2 as E2.
  pose proof (decode_of_encode_groups const_std_string_ref url bs1 ltac:(lia)) as D1.
  pose proof (decode_of_encode_groups const_std_string_ref url bs2 ltac:(lia)) as D2.
  rewrite E1 in D1. rewrite E2 in D2. congruence.
Qed.

Lemma base64_encode_injective_witness : chars "Ma" = chars "Ma".
Proof.
  apply (base64_encode_injective 1 2 (chars "Ma") (chars "Ma") (chars "TWE=") false).
  - reflexivity.
  - vm_compute. lia.
  - reflexivity.
  - vm_compute. lia.
  - reflexivity.
  - reflexivity.
Defined.

Lemma alphabet_char_In (url : bool) (c : byte) :
  alphabet_char url c -> In c (to_base64_chars url).
Proof.
  intros (i & Hi & ->). apply nth_In.
  replace (length (to_base64_chars url)) with 64%nat by (destruct url; reflexivity).
  lia.
Qed.

(** X4.  Every character of the text is a character of the chosen
    alphabet or the trailing character of the variant: the text holds no
    newline and no character of the other variant. *)
Theorem base64_encode_chars (fuel : nat) (bs : list byte) (url : bool) :
  Z.of_nat (length bs) < 2 ^ 32 ->
  (length bs / 3 <= fuel)%nat ->
  exists e, base64_encode fuel bs url = Returned e /\
            Forall (fun c => In c (to_base64_chars url) \/
                             c = (if url then ch_dot else ch_equals)) e.
Proof.
  intros Hlt Hf. eexists. split; [now apply base64_encode_groups|].
  eapply Forall_impl; [|apply encode_groups_chars].
  intros c [H| ->]; [left; now apply alphabet_char_In|right; reflexivity].
Qed.

Lemma base64_encode_chars_witness :
  exists e, base64_encode 1 (chars "Ma") true = Returned e /\
            Forall (fun c => In c (to_base64_chars true) \/
                             c = (if true then ch_dot else ch_equals)) e.
Proof.
  apply (base64_encode_chars 1 (chars "Ma") true).
  - reflexivity.
  - vm_compute. lia.
Defined.

(** ** The reverse table against the two alphabets *)

Lemma pos_of_char_returns (c : byte) (v : Z) :
  pos_of_char c = Returned v ->
  0 <= v < 64 /\
  (c = tab_at (to_base64_chars false) v \/ c = tab_at (to_base64_chars true) v).
Proof.
  intros H.
  destruct c; cbv in H; try discriminate; injection H as <-;
    (split; [lia|]); first [left; reflexivity | right; reflexivity].
Qed.

(** X8.  [pos_of_char] returns [v] exactly for the character at index [v]
    of one of the two alphabets, and throws exactly for the characters of
    neither; it has no other outcome. *)
Theorem pos_of_char_spec (c : byte) :
  (forall v, pos_of_char c = Returned v <->
             0 <= v < 64 /\
             (c = tab_at (to_base64_chars false) v \/
              c = tab_at (to_base64_chars true) v)) /\
  (pos_of_char c = Thrown <->
   ~ In c (to_base64_chars false) /\ ~ In c (to_base64_chars true)) /\
  ((exists v, pos_of_char c = Returned v) \/ pos_of_char c = Thrown).
Proof.
  split; [|split].
  - intros v. split; [apply pos_of_char_returns|].
    intros [Hv [-> | ->]]; now apply pos_of_char_tab.
  - rewrite pos_of_char_symbol.
    pose proof (is_symbol_In c) as S. destruct (is_symbol c).
    + split; [discriminate|]. intros [N1 N2].
      destruct (proj1 S eq_refl); contradiction.
    + split; [|reflexivity]. intros _.
      split; intros Hin; [assert (false = true) by (apply S; now left)
                         |assert (false = true) by (apply S; now right)];
        discriminate.
  - rewrite pos_of_char_symbol. destruct (is_symbol c); [left; eauto|now right].
Qed.

(** ** [insert_linebreaks] on any string *)

Lemma break_lines_length (d fuel : nat) :
  (1 <= d)%nat ->
  forall rest,
    (length rest <= S fuel * d)%nat ->
    length (break_lines fuel d rest) = (length rest + (length rest - 1) / d)%nat.
Proof.
  intros Hd.
  induction fuel as [|fuel IH]; intros rest Hf; cbn [break_lines].
  - rewrite Nat.div_small by lia. lia.
  - destruct (Nat.ltb_spec d (length rest)) as [Hlong|Hle].
    + rewrite length_app, length_firstn. cbn [length].
      rewrite Nat.mul_succ_l in Hf.
      rewrite IH by (rewrite length_skipn; lia).
      rewrite length_skipn.
      replace (length rest - 1)%nat with ((length rest - d - 1) + 1 * d)%nat by lia.
      rewrite Nat.div_add by lia. lia.
    + rewrite Nat.div_small by lia. lia.
Qed.

Lemma break_lines_nth (d fuel : nat) :
  (1 <= d)%nat ->
  forall rest i,
    (length rest <= S fuel * d)%nat ->
    (i < length rest)%nat ->
    nth_error (break_lines fuel d rest) (i + i / d) = nth_error rest i.
Proof.
  intros Hd.
  induction fuel as [|fuel IH]; intros rest i Hf Hi; cbn [break_lines].
  - rewrite Nat.div_small by lia. now rewrite Nat.add_0_r.
  - destruct (Nat.ltb_spec d (length rest)) as [Hlong|Hle].
    2:{ rewrite Nat.div_small by lia. now rewrite Nat.add_0_r. }
    assert (Hfl : length (firstn d rest) = d) by (rewrite length_firstn; lia).
    destruct (Nat.lt_ge_cases i d) as [Hid|Hid].
    + rewrite Nat.div_small by lia. rewrite Nat.add_0_r.
      rewrite nth_error_app1 by lia.
      rewrite <- (firstn_skipn d rest) at 2.
      now rewrite nth_error_app1 by lia.
    + replace (i / d)%nat with ((i - d) / d + 1)%nat.
      2:{ replace i with ((i - d) + 1 * d)%nat at 2 by lia.
          now rewrite Nat.div_add by lia. }
      rewrite nth_error_app2 by lia. rewrite Hfl.
      replace (i + ((i - d) / d + 1) - d)%nat with (S ((i - d) + (i - d) / d)) by lia.
      cbn [nth_error].
      rewrite Nat.mul_succ_l in Hf.
      rewrite IH by (rewrite ?length_skipn; lia).
      rewrite <- (firstn_skipn d rest) at 2.
      rewrite nth_error_app2 by lia. now rewrite Hfl.
Qed.

(** X9.  [insert_linebreaks] with a distance of at least one, on any
    string: the character at index [i] of the string is at index
    [i + i / d] of the result, the result has one more character for each
    full line of [d] characters that is followed by another character, and
    without its newlines it is the string without its newlines. *)
Theorem insert_linebreaks_spec (fuel d : nat) (str : list byte) :
  (1 <= d)%nat ->
  (length str <= S fuel * d)%nat ->
  Z.of_nat (2 * length str + 2 * d) + 2 < 2 ^ 64 ->
  exists out,
    insert_linebreaks fuel str (Z.of_nat d) = Returned out /\
    length out = (length str + (length str - 1) / d)%nat /\
    (forall i, (i < length str)%nat -> nth_error out (i + i / d) = nth_error str i) /\
    erase_newlines out = erase_newlines str.
Proof.
  intros Hd Hf Hlt. exists (break_lines fuel d str).
  split; [now apply insert_linebreaks_lines|].
  split; [now apply break_lines_length|].
  split; [|apply erase_break_lines].
  intros i Hi. now apply break_lines_nth.
Qed.

Lemma insert_linebreaks_spec_witness :
  exists out,
    insert_linebreaks 2 (chars "abcdefg") (Z.of_nat 3) = Returned out /\
    length out = (length (chars "abcdefg") + (length (chars "abcdefg") - 1) / 3)%nat /\
    (forall i, (i < length (chars "abcdefg"))%nat ->
               nth_error out (i + i / 3) = nth_error (chars "abcdefg") i) /\
    erase_newlines out = erase_newlines (chars "abcdefg").
Proof.
  apply (insert_linebreaks_spec 2 3 (chars "abcdefg")).
  - lia.
  - vm_compute. lia.
  - vm_compute. reflexivity.
Defined.

Lemma break_lines_short (fuel d : nat) (rest : list byte) :
  (length rest <= d)%nat -> break_lines fuel d rest = rest.
Proof.
  intros H. destruct fuel; [reflexivity|]. cbn [break_lines].
  destruct (Nat.ltb_spec d (length rest)); [lia|reflexivity].
Qed.

(** X12.  A buffer of at most 48 bytes has a text of at most 64
    characters: [encode_pem] and [encode_mime] insert no newline and return
    what [base64_encode] returns with the standard alphabet. *)
Theorem encode_short_text (fuel : nat) (bs : list byte) :
  (length bs <= 48)%nat ->
  (length bs / 3 <= fuel)%nat ->
  encode_pem fuel bs = base64_encode fuel bs false /\
  encode_mime fuel bs = base64_encode fuel bs false.
Proof.
  intros Hs Hf.
  unfold encode_pem, encode_mime, encode_with_line_breaks, encode.
  rewrite base64_encode_groups by (assumption || lia). cbn [bind].
  set (e := encode_groups (to_base64_chars false) (trailing_char_of false) bs).
  assert (Hl : length e = (4 * ((length bs + 2) / 3))%nat)
    by apply encode_groups_length.
  assert (Hq : ((length bs + 2) / 3 < 17)%nat).
  { apply Nat.Div0.div_lt_upper_bound. lia. }
  pose proof (insert_linebreaks_lines fuel 64 e) as L64.
  pose proof (insert_linebreaks_lines fuel 76 e) as L76.
  rewrite break_lines_short in L64, L76 by lia.
  split; [apply L64|apply L76]; lia.
Qed.

Lemma encode_short_text_witness :
  encode_pem 1 (chars "Man") = base64_encode 1 (chars "Man") false /\
  encode_mime 1 (chars "Man") = base64_encode 1 (chars "Man") false.
Proof.
  apply (encode_short_text 1 (chars "Man")).
  - vm_compute. lia.
  - vm_compute. lia.
Defined.
